(** * mlgen2: the genetic algorithm and the feed-forward brain

    A shallow embedding of [mlgen2/bases.py], [mlgen2/critters.py] and
    [mlgen2/evolvers.py], and the properties of selection, crossover,
    mutation, mating, evolution and inference stated over it.

    Conventions of the embedding.
    - A Python [int] is a [Z].  A Python [float] is the rational it
      stands for ([Q]); "numerically equal" is [Qeq].  The product
      [len(c) * selection_frac] of [_select], whose integer part is the
      number of parents, is computed as the code computes it: the length
      is converted to a float and the exact product is rounded to the
      nearest float ([round64]), and [selection_frac] is a float
      ([float64]).  The arithmetic on traits and layers (crossover,
      mutation, inference) is exact: its results are the values before
      rounding.  Infinities and NaN are not modelled.
    - A raised exception is [Err e]; code that can raise returns a [result].
    - The two global random generators ([random] and [numpy.random]) are a
      [tape] of draws that is threaded through the code that uses them.
    - Classes are records that follow the attributes set by [__init__].
      Where the source reaches attributes by name ([getattr], [setattr],
      [__dict__], [**kwargs]) the record is seen through its attribute
      dictionary, a list of (name, [value]) in insertion order.
    - An object is its value.  The code changes an object in place only
      when the object is new and held by one variable (the physique and
      the brain that [_crossover] builds), so a changed copy stands for it.
    - The source is Python 3 (its signatures are annotated): [dict.keys()]
      is a view of the keys, not a list. *)

From Stdlib Require Import QArith Qround Qpower Qabs Sorted Permutation Lia Lqa.
From stdpp Require Import base list strings.

Local Open Scope string_scope.
Local Open Scope list_scope.

(** ** Python run time *)

Module Py.

(** The exceptions the modelled code can raise. *)
Inductive exn :=
| AssertionError
| AttributeError (name : string)
| TypeError
| ValueError
| IndexError.

Inductive result (A : Type) :=
| Ok (a : A)
| Err (e : exn).
Arguments Ok {A} a.
Arguments Err {A} e.

#[global] Instance result_ret : MRet result := fun A a => Ok a.
#[global] Instance result_bind : MBind result := fun A B f m =>
  match m with
  | Ok a => f a
  | Err e => Err e
  end.
#[global] Instance result_fmap : FMap result := fun A B f m =>
  match m with
  | Ok a => Ok (f a)
  | Err e => Err e
  end.

(** [assert b] *)
Definition assert (b : bool) : result unit :=
  if b then Ok tt else Err AssertionError.

(** A comprehension or a [for] loop that collects: the first exception
    stops it. *)
Fixpoint mapM {A B} (f : A -> result B) (l : list A) : result (list B) :=
  match l with
  | [] => Ok []
  | x :: l' => y ← f x; ys ← mapM f l'; Ok (y :: ys)
  end.

(** *** numpy arrays of one and two dimensions *)

Record matrix := Matrix {
  nrows : nat;
  ncols : nat;
  entries : list (list Q)      (* row major: [nrows] rows of [ncols] *)
}.

Inductive ndarray :=
| Vec (v : list Q)
| Mat (m : matrix).

(** [a.shape] *)
Inductive shape :=
| Shape1 (n : nat)
| Shape2 (r c : nat).

Definition shape_of (a : ndarray) : shape :=
  match a with
  | Vec v => Shape1 (length v)
  | Mat m => Shape2 (nrows m) (ncols m)
  end.

Definition shape_eqb (s t : shape) : bool :=
  match s, t with
  | Shape1 n, Shape1 m => Nat.eqb n m
  | Shape2 r c, Shape2 r' c' => Nat.eqb r r' && Nat.eqb c c'
  | _, _ => false
  end.

Definition wf_matrix (m : matrix) : Prop :=
  length (entries m) = nrows m /\
  Forall (fun row => length row = ncols m) (entries m).

Definition column (m : matrix) (j : nat) : list Q :=
  map (fun row => nth j row 0%Q) (entries m).

Definition inner (u v : list Q) : Q :=
  fold_right Qplus 0%Q (zip_with Qmult u v).

(** [np.dot(x, m)] of a vector and a matrix: the vector-matrix product,
    entry [j] is the sum over [i] of [x[i] * m[i][j]]. *)
Definition np_dot (x : list Q) (m : matrix) : result (list Q) :=
  if Nat.eqb (length x) (nrows m)
  then Ok (map (fun j => inner x (column m j)) (seq 0 (ncols m)))
  else Err ValueError.

(** [u + v] of two vectors, with numpy's broadcasting of a length 1. *)
Definition np_add (u v : list Q) : result (list Q) :=
  if Nat.eqb (length u) (length v) then Ok (zip_with Qplus u v)
  else match u, v with
       | [a], _ => Ok (map (fun y => a + y)%Q v)
       | _, [b] => Ok (map (fun x => x + b)%Q u)
       | _, _ => Err ValueError
       end.

Definition arr_map (f : Q -> Q) (a : ndarray) : ndarray :=
  match a with
  | Vec v => Vec (map f v)
  | Mat m => Mat (Matrix (nrows m) (ncols m) (map (map f) (entries m)))
  end.

Definition as2d (a : ndarray) : matrix :=
  match a with
  | Vec v => Matrix 1 (length v) [v]
  | Mat m => m
  end.

Definition bdim (n m : nat) : option nat :=
  if Nat.eqb n m then Some n
  else if Nat.eqb n 1 then Some m
  else if Nat.eqb m 1 then Some n
  else None.

Definition bget (m : matrix) (i j : nat) : Q :=
  nth (if Nat.eqb (ncols m) 1 then 0 else j)
      (nth (if Nat.eqb (nrows m) 1 then 0 else i) (entries m) []) 0%Q.

(** An elementwise operation on two arrays, with numpy's broadcasting. *)
Definition broadcast2 (f : Q -> Q -> Q) (a b : ndarray) : result ndarray :=
  let A := as2d a in
  let B := as2d b in
  match bdim (nrows A) (nrows B), bdim (ncols A) (ncols B) with
  | Some r, Some c =>
      let rows :=
        map (fun i => map (fun j => f (bget A i j) (bget B i j)) (seq 0 c))
            (seq 0 r) in
      Ok (match a, b with
          | Vec _, Vec _ => Vec (nth 0 rows [])
          | _, _ => Mat (Matrix r c rows)
          end)
  | _, _ => Err ValueError
  end.

(** *** Values *)

(** What an attribute can hold and what [getattr] returns.  An object
    reached through an attribute is seen as its class name and its
    attribute dictionary. *)
#[warnings="-register-all"]
Inductive value :=
| VNone
| VInt (z : Z)
| VFloat (q : Q)
| VStr (s : string)
| VArray (a : ndarray)
| VTuple (l : list value)
| VList (l : list value)
| VFun (f : list Q -> list Q)
| VObject (cls : string) (dict : list (string * value)).

(** The numbers among the values: what [*] and [+] compute on. *)
Inductive num :=
| Scalar (q : Q)
| Array (a : ndarray).

Definition as_num (v : value) : option num :=
  match v with
  | VInt z => Some (Scalar (inject_Z z))
  | VFloat q => Some (Scalar q)
  | VArray a => Some (Array a)
  | _ => None
  end.

Definition of_num (n : num) : value :=
  match n with
  | Scalar q => VFloat q
  | Array a => VArray a
  end.

Definition num_binop (f : Q -> Q -> Q) (x y : num) : result num :=
  match x, y with
  | Scalar a, Scalar b => Ok (Scalar (f a b))
  | Scalar a, Array b => Ok (Array (arr_map (f a) b))
  | Array a, Scalar b => Ok (Array (arr_map (fun x => f x b) a))
  | Array a, Array b => Array <$> broadcast2 f a b
  end.

(** [v * q] for a float [q]: a number is scaled, an array is scaled
    elementwise; a list, a tuple, a string, [None], a function or an object of the
    classes of [bases.py] cannot be multiplied by a float. *)
Definition py_mul (v : value) (q : Q) : result value :=
  match as_num v with
  | Some n => of_num <$> num_binop Qmult n (Scalar q)
  | None => Err TypeError
  end.

(** [a + b].  Numbers and arrays add (elementwise, broadcast), lists,
    tuples and strings concatenate; numpy's conversion of a list that is added to an
    array is outside the model and is reported as [TypeError]. *)
Definition py_add (a b : value) : result value :=
  match a, b with
  | VInt x, VInt y => Ok (VInt (x + y))
  | VList x, VList y => Ok (VList (x ++ y))
  | VTuple x, VTuple y => Ok (VTuple (x ++ y))
  | VStr x, VStr y => Ok (VStr (x ++ y))
  | _, _ =>
      match as_num a, as_num b with
      | Some x, Some y => of_num <$> num_binop Qplus x y
      | _, _ => Err TypeError
      end
  end.

(** [range(v)]: only an [int] can be a bound. *)
Definition py_range (v : value) : result (list Z) :=
  match v with
  | VInt n => Ok (map Z.of_nat (seq 0 (Z.to_nat n)))
  | _ => Err TypeError
  end.

(** A Python index into a sequence of length [n]: negative indices count
    from the end. *)
Definition py_index (n : nat) (i : Z) : option nat :=
  if (0 <=? i)%Z then
    (if (i <? Z.of_nat n)%Z then Some (Z.to_nat i) else None)
  else
    (if (0 <=? Z.of_nat n + i)%Z then Some (Z.to_nat (Z.of_nat n + i)) else None).

(** [full_val[i]] on a list. *)
Definition py_getitem (v : value) (i : Z) : result value :=
  match v with
  | VList l =>
      match py_index (length l) i with
      | Some k => match l !! k with Some x => Ok x | None => Err IndexError end
      | None => Err IndexError
      end
  | _ => Err TypeError
  end.

(** [full_val[i] = x] on a list; the list is the one the variable holds,
    so the updated list is returned to be used in its place. *)
Definition py_setitem (v : value) (i : Z) (x : value) : result value :=
  match v with
  | VList l =>
      match py_index (length l) i with
      | Some k => Ok (VList (<[k := x]> l))
      | None => Err IndexError
      end
  | _ => Err TypeError
  end.

(** [val.shape] *)
Definition py_shape (v : value) : result shape :=
  match v with
  | VArray a => Ok (shape_of a)
  | _ => Err (AttributeError "shape")
  end.

(** *** Floats

    A finite [float] is a rational [m * 2^e] with [|m| < 2^53] and
    [-1074 <= e], of size at most [(2^53 - 1) * 2^971].  An operation on
    floats returns the exact result rounded to the nearest such number,
    the one with the even [m] of two that are equally near.  Results of
    size [2^1024] and more (Python's [inf], or its [OverflowError] for an
    [int]) are outside the model: the rounded value is returned with the
    exponent it needs. *)

Definition pow2 (k : Z) : Q := (2 ^ k)%Q.

(** The exponent [b] with [2^b <= x < 2^(b+1)], for [0 < x]. *)
Definition binade (x : Q) : Z :=
  let g := (Z.log2 (Qnum x) - Z.log2 (Zpos (Qden x)))%Z in
  if Qle_bool (pow2 g) x then g else (g - 1)%Z.

(** The nearest integer, the even one of two that are equally near. *)
Definition round_half_even (y : Q) : Z :=
  let f := Qfloor y in
  match Qcompare (y - inject_Z f) (1 # 2) with
  | Lt => f
  | Gt => (f + 1)%Z
  | Eq => if Z.even f then f else (f + 1)%Z
  end.

(** The exponent of the last of the 53 bits of the float nearest to [x]:
    52 below the binade of [x], and [-1074] for the subnormal numbers. *)
Definition exponent64 (x : Q) : Z := Z.max (binade x - 52) (-1074).

Definition round64_pos (x : Q) : Q :=
  (inject_Z (round_half_even (x / pow2 (exponent64 x))) * pow2 (exponent64 x))%Q.

(** The float nearest to [x]. *)
Definition round64 (x : Q) : Q :=
  match Qcompare x 0 with
  | Eq => 0%Q
  | Gt => round64_pos x
  | Lt => (- round64_pos (- x))%Q
  end.

(** The rationals that are finite floats. *)
Definition representable (x : Q) : bool :=
  Qeq_bool (round64 x) x && Qle_bool (Qabs x) (pow2 1024 - pow2 971).

Record float64 := Float64 {
  float_value :> Q;
  float_exact : representable float_value = true
}.

(** [float(z)] of an [int], the conversion that [int * float] makes of its
    left operand. *)
Definition float_of_int (z : Z) : Q := round64 (inject_Z z).

(** [a * b] on floats. *)
Definition float_mul (a b : Q) : Q := round64 (a * b).

(** [int(q)] of a float: truncation toward zero. *)
Definition py_int (q : Q) : Z := Z.quot (Qnum q) (Zpos (Qden q)).

(** [l[:k]] *)
Definition slice_to {A} (l : list A) (k : Z) : list A :=
  if (0 <=? k)%Z then firstn (Z.to_nat k) l
  else firstn (Z.to_nat (Z.of_nat (length l) + k)) l.

(** *** Attribute dictionaries *)

Definition attrs := list (string * value).

Fixpoint lookup_attr (name : string) (d : attrs) : option value :=
  match d with
  | [] => None
  | (k, v) :: d' => if String.eqb k name then Some v else lookup_attr name d'
  end.

(** Assignment to a key: an existing key keeps its place, a new key goes
    last. *)
Fixpoint set_attr (name : string) (x : value) (d : attrs) : attrs :=
  match d with
  | [] => [(name, x)]
  | (k, v) :: d' =>
      if String.eqb k name then (k, x) :: d' else (k, v) :: set_attr name x d'
  end.

(** An object whose attributes can be reached by name. *)
Class PyObject (T : Type) := {
  class_name : T -> string;
  py_dict : T -> attrs           (* [obj.__dict__] *)
}.

(** [getattr(obj, name)] on an instance attribute. *)
Definition getattr {T} `{PyObject T} (obj : T) (name : string) : result value :=
  match lookup_attr name (py_dict obj) with
  | Some v => Ok v
  | None => Err (AttributeError name)
  end.

Definition reflect {T} `{PyObject T} (obj : T) : value :=
  VObject (class_name obj) (py_dict obj).

Definition reflect_opt {T} `{PyObject T} (obj : option T) : value :=
  match obj with
  | Some o => reflect o
  | None => VNone
  end.

(** What [random.choice] can be handed: a list, which can be indexed, or
    the key view of a dictionary, which can only be iterated and measured. *)
Inductive pyseq (A : Type) :=
| PyList (l : list A)
| PyDictKeys (l : list A).
Arguments PyList {A} l.
Arguments PyDictKeys {A} l.

(** [d.keys()] *)
Definition dict_keys (d : attrs) : pyseq string := PyDictKeys (map fst d).

(** [for k in s] *)
Definition py_iter {A} (s : pyseq A) : list A :=
  match s with
  | PyList l => l
  | PyDictKeys l => l
  end.

(** *** Randomness *)

(** The draws of the two generators: [rnd_src] feeds [random] (integers
    below a bound), [np_src] feeds [numpy.random] (floats in [0, 1)). *)
Record tape := Tape {
  rnd_pos : nat;
  rnd_src : nat -> nat;
  np_pos : nat;
  np_src : nat -> nat * positive
}.

(** Code that draws and can raise. *)
Definition M (A : Type) : Type := tape -> result (A * tape).

#[global] Instance M_ret : MRet M := fun A a t => Ok (a, t).
#[global] Instance M_bind : MBind M := fun A B f m t =>
  match m t with
  | Ok (a, t') => f a t'
  | Err e => Err e
  end.

#[global] Instance M_fmap : FMap M := fun A B f m t =>
  match m t with
  | Ok (a, t') => Ok (f a, t')
  | Err e => Err e
  end.

Definition lift {A} (r : result A) : M A := fun t =>
  match r with
  | Ok a => Ok (a, t)
  | Err e => Err e
  end.

Definition raise {A} (e : exn) : M A := fun _ => Err e.

(** An integer in [0, n), for [0 < n]. *)
Definition randbelow (n : nat) : M nat := fun t =>
  Ok (rnd_src t (rnd_pos t) mod n,
      Tape (S (rnd_pos t)) (rnd_src t) (np_pos t) (np_src t)).

(** [random.choice(seq)]: [seq[randbelow(len(seq))]]; a key view has a
    length but cannot be indexed. *)
Definition random_choice {A} (s : pyseq A) : M A :=
  match s with
  | PyList l =>
      if Nat.eqb (length l) 0 then raise IndexError
      else (i ← randbelow (length l);
            match l !! i with
            | Some x => mret x
            | None => raise IndexError
            end)
  | PyDictKeys l =>
      if Nat.eqb (length l) 0 then raise IndexError else raise TypeError
  end.

(** [random.sample(population, 2)]: two members at distinct positions,
    drawn from a pool from which the first pick is removed by moving the
    last member into its place; fewer than two members is a [ValueError].
    (For a population of more than 21 the library draws positions until
    the second differs from the first; the pairs it can return are the
    same.) *)
Definition random_sample2 {A} (population : list A) : M (A * A) :=
  let n := length population in
  if Nat.ltb n 2 then raise ValueError
  else (i ← randbelow n;
        j ← randbelow (n - 1);
        let pool :=
          match population !! (n - 1) with
          | Some z => <[i := z]> population
          | None => population
          end in
        match population !! i, pool !! j with
        | Some a, Some b => mret (a, b)
        | _, _ => raise IndexError
        end).

(** One float in [0, 1). *)
Definition random_unit : M Q := fun t =>
  let '(n, d) := np_src t (np_pos t) in
  Ok (inject_Z (Z.of_nat n mod Zpos d) / inject_Z (Zpos d),
      Tape (rnd_pos t) (rnd_src t) (S (np_pos t)) (np_src t))%Q.

Fixpoint random_units (n : nat) : M (list Q) :=
  match n with
  | O => mret []
  | S n' => u ← random_unit; us ← random_units n'; mret (u :: us)
  end.

Fixpoint random_rows (r c : nat) : M (list (list Q)) :=
  match r with
  | O => mret []
  | S r' => row ← random_units c; rows ← random_rows r' c; mret (row :: rows)
  end.

Definition random_array (s : shape) : M ndarray :=
  match s with
  | Shape1 n => Vec <$> random_units n
  | Shape2 r c => (fun rows => Mat (Matrix r c rows)) <$> random_rows r c
  end.

Definition num_shape_ok (n : num) (s : shape) : bool :=
  match n with
  | Scalar _ => false
  | Array a => shape_eqb (shape_of a) s
  end.

(** [np.random.uniform(low, high, size)]: [low + (high - low) * u] for
    fresh [u] in [0, 1), one for each element. *)
Definition np_random_uniform (low high : value) (size : option shape) : M value :=
  match as_num low, as_num high with
  | Some lo, Some hi =>
      width ← lift (num_binop Qminus hi lo);
      match size, width with
      | None, Scalar w =>
          u ← random_unit;
          of_num <$> lift (num_binop Qplus lo (Scalar (w * u)))
      | None, Array w =>
          u ← random_array (shape_of w);
          step ← lift (num_binop Qmult width (Array u));
          of_num <$> lift (num_binop Qplus lo step)
      | Some s, _ =>
          u ← random_array s;
          step ← lift (num_binop Qmult width (Array u));
          r ← lift (num_binop Qplus lo step);
          if num_shape_ok r s then mret (of_num r) else raise ValueError
      end
  | _, _ => raise TypeError
  end.

End Py.

Import Py.

(** ** bases.py *)

(** [class Physique]: a holder of attributes and nothing else, so it is
    its attribute dictionary; [__init__] sets five attributes, in this
    order, each [None] by default. *)
Record Physique := { physique_dict : attrs }.

Definition Physique_init (mass max_s max_dsp max_dsn max_dh : value) : Physique :=
  {| physique_dict :=
       [("mass", mass); ("max_s", max_s); ("max_dsp", max_dsp);
        ("max_dsn", max_dsn); ("max_dh", max_dh)] |}.

#[global] Instance Physique_object : PyObject Physique :=
  {| class_name := fun _ => "Physique"; py_dict := physique_dict |}.

Definition Physique_params : list string :=
  ["mass"; "max_s"; "max_dsp"; "max_dsn"; "max_dh"].

Definition kw_default (name : string) (kw : attrs) : value :=
  match lookup_attr name kw with
  | Some v => v
  | None => VNone
  end.

Definition known_keys (params : list string) (kw : attrs) : bool :=
  forallb (fun k => existsb (String.eqb k) params) (map fst kw).

(** [Physique] called with the dictionary [kw] as keyword arguments: a
    keyword that is not a parameter is a [TypeError]. *)
Definition Physique_kw (kw : attrs) : result Physique :=
  if known_keys Physique_params kw then
    Ok (Physique_init (kw_default "mass" kw) (kw_default "max_s" kw)
          (kw_default "max_dsp" kw) (kw_default "max_dsn" kw)
          (kw_default "max_dh" kw))
  else Err TypeError.

(** [setattr(physique, att, x)] *)
Definition setattr_Physique (physique : Physique) (att : string) (x : value) : Physique :=
  {| physique_dict := set_attr att x (physique_dict physique) |}.

(** [class Location] *)
Record Location := {
  position : Z * Z;
  heading : Q;
  speed : Q
}.

(** [Location()] *)
Definition Location_init : Location :=
  {| position := (0, 0)%Z; heading := 0%Q; speed := 0%Q |}.

#[global] Instance Location_object : PyObject Location :=
  {| class_name := fun _ => "Location";
     py_dict := fun l =>
       [("position", VTuple [VInt (fst (position l)); VInt (snd (position l))]);
        ("heading", VFloat (heading l));
        ("speed", VFloat (speed l))] |}.

(** [class Sensory] *)
Record Sensory := {
  labels : list string;
  width : nat
}.

Definition Sensory_init (labels : list string) : Sensory :=
  {| labels := labels; width := length labels |}.

#[global] Instance Sensory_object : PyObject Sensory :=
  {| class_name := fun _ => "Sensory";
     py_dict := fun s =>
       [("labels", VList (map VStr (labels s)));
        ("width", VInt (Z.of_nat (width s)))] |}.

(** [class Brain]: activation functions, coefficient matrices and
    intercept vectors, one of each for every layer transition. *)
Definition activation := list Q -> list Q.

Record Brain := {
  afs : list activation;
  coefs : list matrix;
  intercepts : list (list Q);
  _n_layers : nat
}.

(** [Brain.__init__] *)
Definition Brain_init (afs : list activation) (coefs : list matrix)
    (intercepts : list (list Q)) : result Brain :=
  _ ← assert (Nat.eqb (length afs) (length coefs)
              && Nat.eqb (length coefs) (length intercepts));
  Ok {| afs := afs; coefs := coefs; intercepts := intercepts;
        _n_layers := length coefs + 1 |}.

Definition reflect_coefs (ms : list matrix) : value :=
  VList (map (fun m => VArray (Mat m)) ms).

Definition reflect_intercepts (bs : list (list Q)) : value :=
  VList (map (fun b => VArray (Vec b)) bs).

#[global] Instance Brain_object : PyObject Brain :=
  {| class_name := fun _ => "Brain";
     py_dict := fun b =>
       [("afs", VList (map VFun (afs b)));
        ("coefs", reflect_coefs (coefs b));
        ("intercepts", reflect_intercepts (intercepts b));
        ("_n_layers", VInt (Z.of_nat (_n_layers b)))] |}.

(** A value read back at the type of an attribute of [Brain].  A value
    that is not a list of the declared kind cannot be held by the record;
    it is rejected with [TypeError]. *)
Definition as_list {A} (f : value -> option A) (v : value) : result (list A) :=
  match v with
  | VList l =>
      mapM (fun x => match f x with Some a => Ok a | None => Err TypeError end) l
  | _ => Err TypeError
  end.

Definition as_matrix (v : value) : option matrix :=
  match v with VArray (Mat m) => Some m | _ => None end.

Definition as_vector (v : value) : option (list Q) :=
  match v with VArray (Vec b) => Some b | _ => None end.

Definition as_activation (v : value) : option activation :=
  match v with VFun f => Some f | _ => None end.

(** A required parameter that no keyword supplies is a [TypeError]. *)
Definition kw_required (name : string) (kw : attrs) : result value :=
  match lookup_attr name kw with
  | Some v => Ok v
  | None => Err TypeError
  end.

(** [Brain] called with the dictionary [kw] as keyword arguments: the
    three parameters of [__init__] have no default. *)
Definition Brain_kw (kw : attrs) : result Brain :=
  if known_keys ["afs"; "coefs"; "intercepts"] kw then
    a ← kw_required "afs" kw;
    c ← kw_required "coefs" kw;
    i ← kw_required "intercepts" kw;
    a' ← as_list as_activation a;
    c' ← as_list as_matrix c;
    i' ← as_list as_vector i;
    Brain_init a' c' i'
  else Err TypeError.

(** [setattr(brain, att, x)] for the two attributes that are assigned by
    name; another name, like a value that is not a list of arrays of the
    declared kind, is more than the record can hold and is rejected with
    [TypeError]. *)
Definition setattr_Brain (brain : Brain) (att : string) (x : value) : result Brain :=
  if String.eqb att "coefs" then
    c ← as_list as_matrix x;
    Ok {| afs := afs brain; coefs := c; intercepts := intercepts brain;
          _n_layers := _n_layers brain |}
  else if String.eqb att "intercepts" then
    i ← as_list as_vector x;
    Ok {| afs := afs brain; coefs := coefs brain; intercepts := i;
          _n_layers := _n_layers brain |}
  else Err TypeError.

(** The list [activity] of [Brain.__call__]: a cell holds the placeholder
    [0] until an activation is stored in it. *)
Inductive cell :=
| Placeholder
| Activity (a : list Q).

(** [activity[i]] as the left operand of [np.dot].  The loop reads cell
    [i] after cell [i] was written, so the placeholder is never read;
    that case is closed with [TypeError]. *)
Definition read_cell (activity : list cell) (i : nat) : result (list Q) :=
  match activity !! i with
  | Some (Activity a) => Ok a
  | Some Placeholder => Err TypeError
  | None => Err IndexError
  end.

(** [activity[i] = a] *)
Definition write_cell (activity : list cell) (i : nat) (a : list Q) : result (list cell) :=
  if Nat.ltb i (length activity) then Ok (<[i := Activity a]> activity)
  else Err IndexError.

(** [l[i]] for an index within [0, len(l)). *)
Definition list_item {A} (l : list A) (i : nat) : result A :=
  match l !! i with
  | Some x => Ok x
  | None => Err IndexError
  end.

(** The body of [for i, (m, b) in enumerate(zip(self.coefs,
    self.intercepts))]. *)
Fixpoint propagate (afs : list activation)
    (layers : list (nat * (matrix * list Q))) (activity : list cell)
    : result (list cell) :=
  match layers with
  | [] => Ok activity
  | (i, (m, b)) :: rest =>
      f ← list_item afs i;
      x ← read_cell activity i;
      d ← np_dot x m;
      s ← np_add d b;
      activity' ← write_cell activity (i + 1) (f s);
      propagate afs rest activity'
  end.

Definition enumerate {A} (l : list A) : list (nat * A) :=
  zip (seq 0 (length l)) l.

(** [Brain.__call__] on one input vector. *)
Definition Brain_call_vector (self : Brain) (x : list Q) : result (list Q) :=
  activity ← write_cell (replicate (_n_layers self) Placeholder) 0 x;
  activity ← propagate (afs self) (enumerate (zip (coefs self) (intercepts self)))
               activity;
  match last activity with
  | Some (Activity a) => Ok a
  | Some Placeholder => Err TypeError
  | None => Err IndexError
  end.

Definition same_lengths (l : list (list Q)) : bool :=
  match l with
  | [] => true
  | v :: l' => forallb (fun w => Nat.eqb (length w) (length v)) l'
  end.

(** [Brain.__call__]: a two-dimensional input is a batch of rows, each
    propagated on its own, the outputs flattened into one vector ([np.array]
    of outputs of different lengths is a [ValueError]). *)
Definition Brain_call (self : Brain) (x : ndarray) : result ndarray :=
  match x with
  | Mat xs =>
      outs ← mapM (Brain_call_vector self) (entries xs);
      if same_lengths outs then Ok (Vec (concat outs)) else Err ValueError
  | Vec v => Vec <$> Brain_call_vector self v
  end.

(** The three classes of critters: [Critter], and [Plant] and [Herby] of
    [critters.py]. *)
Inductive class :=
| Critter_class
| Plant_class
| Herby_class.

Definition class_eqb (c d : class) : bool :=
  match c, d with
  | Critter_class, Critter_class => true
  | Plant_class, Plant_class => true
  | Herby_class, Herby_class => true
  | _, _ => false
  end.

Record Critter := {
  cls : class;                  (* [self.__class__] *)
  physique : option Physique;
  sensory : option Sensory;
  brain : option Brain;
  location : Location;
  fitness : Z;
  energy : Q
}.

(** The keyword arguments [Critter.__init__] takes after the four
    positional ones. *)
Record kwargs := {
  kw_fitness : option Z;
  kw_energy : option Q
}.

Definition no_kwargs : kwargs := {| kw_fitness := None; kw_energy := None |}.

(** [Critter.__init__], which [Herby] inherits. *)
Definition Critter_init (cls : class) (physique : option Physique)
    (sensory : option Sensory) (brain : option Brain) (location : Location)
    (kw : kwargs) : Critter :=
  {| cls := cls; physique := physique; sensory := sensory; brain := brain;
     location := location;
     fitness := default 0%Z (kw_fitness kw);
     energy := default 0%Q (kw_energy kw) |}.

Definition class_string (c : class) : string :=
  match c with
  | Critter_class => "Critter"
  | Plant_class => "Plant"
  | Herby_class => "Herby"
  end.

#[global] Instance Critter_object : PyObject Critter :=
  {| class_name := fun c => class_string (cls c);
     py_dict := fun c =>
       [("physique", reflect_opt (physique c));
        ("sensory", reflect_opt (sensory c));
        ("brain", reflect_opt (brain c));
        ("location", reflect (location c));
        ("fitness", VInt (fitness c));
        ("energy", VFloat (energy c))] |}.

(** [cls(physique, sensory, brain, location, **kwargs)].  [Plant.__init__]
    takes a location only, so four positional arguments are a
    [TypeError]. *)
Definition class_call (cls : class) (physique : option Physique)
    (sensory : option Sensory) (brain : option Brain) (location : Location)
    (kw : kwargs) : result Critter :=
  match cls with
  | Critter_class | Herby_class =>
      Ok (Critter_init cls physique sensory brain location kw)
  | Plant_class => Err TypeError
  end.

(** ** bases.py, continued *)

(** [np.random.rand(n)]: [n] floats in [0, 1); a negative dimension is a
    [ValueError]. *)
Definition np_random_rand1 (n : Z) : M (list Q) :=
  if (n <? 0)%Z then raise ValueError else random_units (Z.to_nat n).

(** [np.random.rand(r, c)] *)
Definition np_random_rand2 (r c : Z) : M matrix :=
  if ((r <? 0) || (c <? 0))%Z then raise ValueError
  else (fun rows => Matrix (Z.to_nat r) (Z.to_nat c) rows)
         <$> random_rows (Z.to_nat r) (Z.to_nat c).

(** The loop of [Brain.random_init]:
    [coefs.append(np.random.rand(lws[i], lws[i + 1]))] and
    [ints.append(np.random.rand(lws[i + 1]))] for every [i]. *)
Fixpoint random_init_loop (lws : list Z) (indices : list nat)
    (coefs : list matrix) (ints : list (list Q))
    : M (list matrix * list (list Q)) :=
  match indices with
  | [] => mret (coefs, ints)
  | i :: rest =>
      rows ← lift (list_item lws i);
      cols ← lift (list_item lws (i + 1));
      m ← np_random_rand2 rows cols;
      n ← lift (list_item lws (i + 1));
      b ← np_random_rand1 n;
      random_init_loop lws rest (coefs ++ [m]) (ints ++ [b])
  end.

(** [Brain.random_init]; [range(len(lws) - 1)] is empty for an empty
    tuple of widths. *)
Definition Brain_random_init (af : list activation) (lws : list Z) : M Brain :=
  '(coefs, ints) ← random_init_loop lws (seq 0 (length lws - 1)) [] [];
  lift (Brain_init af coefs ints).

(** ** evolvers.py *)

(** [sorted(l, key=key, reverse=True)]: the stable sort by decreasing
    key.  An insertion from the right that passes the strictly greater keys
    keeps equal keys in their original order, which is the list Python's
    sort returns. *)
Fixpoint insert_desc {A} (key : A -> Z) (x : A) (l : list A) : list A :=
  match l with
  | [] => [x]
  | y :: l' =>
      if (key x <? key y)%Z then y :: insert_desc key x l' else x :: y :: l'
  end.

Definition sorted_reverse {A} (key : A -> Z) (l : list A) : list A :=
  fold_right (insert_desc key) [] l.

(** [class GlobalGA] *)
Record GlobalGA := {
  selection_frac : float64;
  crossover_rate : Q;
  physical_mutation_rate : Q;
  mental_mutation_rate : Q
}.

Definition Qlt_bool (a b : Q) : bool := negb (Qle_bool b a).

(** [GlobalGA.__init__] *)
Definition GlobalGA_init (selection_frac : float64)
    (crossover_rate physical_mutation_rate mental_mutation_rate : Q) :
    result GlobalGA :=
  _ ← assert (Qlt_bool 0 selection_frac && Qlt_bool selection_frac 1);
  _ ← assert (Qle_bool 0 crossover_rate && Qle_bool crossover_rate 1);
  _ ← assert (Qle_bool 0 physical_mutation_rate);
  _ ← assert (Qle_bool 0 mental_mutation_rate);
  Ok {| selection_frac := selection_frac;
        crossover_rate := crossover_rate;
        physical_mutation_rate := physical_mutation_rate;
        mental_mutation_rate := mental_mutation_rate |}.

(** [GlobalGA._select]; [len(c) * self.selection_frac] multiplies an
    [int] by a float. *)
Definition _select (self : GlobalGA) (critters : list Critter) : list Critter :=
  let c := sorted_reverse fitness critters in
  slice_to c
    (py_int (float_mul (float_of_int (Z.of_nat (length c))) (selection_frac self))).

(** [_crossover_att], the local function of [GlobalGA._crossover]. *)
Definition _crossover_att (self : GlobalGA) {T} `{PyObject T} (p s : T)
    (att : string) : result value :=
  let rate := crossover_rate self in
  a ← getattr p att;
  x ← py_mul a (1 - rate);
  b ← getattr s att;
  y ← py_mul b rate;
  py_add x y.

(** [{k: _crossover_att(primary, secondary, k) for k in atts}] *)
Definition cross_atts (self : GlobalGA) (primary secondary : Critter)
    (atts : list string) : result attrs :=
  mapM (fun k => v ← _crossover_att self primary secondary k; Ok (k, v)) atts.

(** [GlobalGA._crossover] *)
Definition _crossover (self : GlobalGA) (primary secondary : Critter)
    : result (Physique * Brain) :=
  let p_atts := dict_keys (py_dict (Physique_init VNone VNone VNone VNone VNone)) in
  cross_p_atts ← cross_atts self primary secondary (py_iter p_atts);
  physique ← Physique_kw cross_p_atts;
  let m_atts := ["coefs"; "intercepts"] in
  cross_b_atts ← cross_atts self primary secondary m_atts;
  brain ← Brain_kw cross_b_atts;
  Ok (physique, brain).

(** [val + np.random.uniform(val * (1 - rate), val * (1 + rate), size)],
    the expression both mutations assign; [size] is absent for a trait
    and is [val.shape] for a layer. *)
Definition perturb (rate : Q) (val : value)
    (size : value -> result (option shape)) : M value :=
  low ← lift (py_mul val (1 - rate));
  high ← lift (py_mul val (1 + rate));
  size ← lift (size val);
  draw ← np_random_uniform low high size;
  lift (py_add val draw).

Definition no_size (val : value) : result (option shape) := Ok None.

Definition val_shape (val : value) : result (option shape) :=
  Some <$> py_shape val.

(** [GlobalGA._mutate_physique] *)
Definition _mutate_physique (self : GlobalGA) (physique : Physique) : M Physique :=
  att ← random_choice (dict_keys (py_dict physique));
  val ← lift (getattr physique att);
  new_val ← perturb (physical_mutation_rate self) val no_size;
  mret (setattr_Physique physique att new_val).

(** [GlobalGA._mutate_brain] *)
Definition _mutate_brain (self : GlobalGA) (brain : Brain) : M Brain :=
  att ← random_choice (PyList ["coefs"; "intercepts"]);
  bound ← lift (getattr brain "coefs");
  layers ← lift (py_range bound);
  layer_num ← random_choice (PyList layers);
  full_val ← lift (getattr brain att);
  val ← lift (py_getitem full_val layer_num);
  new_val ← perturb (mental_mutation_rate self) val val_shape;
  full_val ← lift (py_setitem full_val layer_num new_val);
  lift (setattr_Brain brain att full_val).

(** [GlobalGA.mate_pair] *)
Definition mate_pair (self : GlobalGA) (primary secondary : Critter)
    (location : Location) (mutate_physique mutate_brain : bool) (kw : kwargs)
    : M Critter :=
  _ ← lift (assert (class_eqb (cls primary) (cls secondary)));
  let sensory := sensory primary in
  let cls := cls primary in
  '(new_physique, new_brain) ← lift (_crossover self primary secondary);
  new_physique ← (if mutate_physique
                  then _mutate_physique self new_physique
                  else mret new_physique);
  new_brain ← (if mutate_brain
               then _mutate_brain self new_brain
               else mret new_brain);
  lift (class_call cls (Some new_physique) sensory (Some new_brain) location kw).

(** The method [self.mate_pair] is looked up on the instance when the loop
    of [evolve_generation] calls it.  The loop is written over that method,
    so that what the loop does with the offspring can be stated apart from
    what [GlobalGA.mate_pair] does; a method put in its place is taken to
    return a new critter and to leave its parents as they are, as
    [GlobalGA.mate_pair] does. *)
Definition mate_method : Type :=
  Critter -> Critter -> Location -> bool -> bool -> M Critter.

Section Generation.
Variable self_mate_pair : mate_method.

(** [for n in range(new_gen_size): ...; new_gen_pool.append(offspring)] *)
Fixpoint mating_loop (new_gen_size : nat) (selection : list Critter)
    (mutate_physique mutate_brain : bool) (new_gen_pool : list Critter)
    : M (list Critter) :=
  match new_gen_size with
  | O => mret new_gen_pool
  | S n =>
      '(a, b) ← random_sample2 selection;
      offspring ← self_mate_pair a b Location_init mutate_physique mutate_brain;
      mating_loop n selection mutate_physique mutate_brain
        (new_gen_pool ++ [offspring])
  end.

Definition evolve_generation_with (self : GlobalGA) (critters : list Critter)
    (mutate_physique mutate_brain : bool) : M (list Critter) :=
  let selection := _select self critters in
  let new_gen_size := length critters - length selection in
  new_gen_pool ← mating_loop new_gen_size selection mutate_physique mutate_brain [];
  mret (selection ++ new_gen_pool).
End Generation.

(** [GlobalGA.evolve_generation] *)
Definition evolve_generation (self : GlobalGA) (critters : list Critter)
    (mutate_physique mutate_brain : bool) : M (list Critter) :=
  evolve_generation_with
    (fun a b location mp mb => mate_pair self a b location mp mb no_kwargs)
    self critters mutate_physique mutate_brain.

(** ** Terms of the specification *)

(** Decreasing order of the key; for a population, of the fitness. *)
Definition desc {A} (key : A -> Z) (a b : A) : Prop := (key b <= key a)%Z.

Definition fitter_first : Critter -> Critter -> Prop := desc fitness.

(** The members of [l] whose key is [k], in the order of [l]. *)
Definition with_key {A} (key : A -> Z) (k : Z) (l : list A) : list A :=
  List.filter (fun x => Z.eqb (key x) k) l.

(** [N * selection_fraction], a product of floats, and
    [floor(N * selection_fraction)] *)
Definition scaled (n : nat) (selection_fraction : Q) : Q :=
  float_mul (float_of_int (Z.of_nat n)) selection_fraction.

Definition parent_count (n : nat) (selection_fraction : Q) : nat :=
  Z.to_nat (Qfloor (scaled n selection_fraction)).

(** A configuration within the bounds of the constructor. *)
Definition valid_config (self : GlobalGA) : Prop :=
  (0 < selection_frac self)%Q /\ (selection_frac self < 1)%Q /\
  (0 <= crossover_rate self)%Q /\ (crossover_rate self <= 1)%Q /\
  (0 <= physical_mutation_rate self)%Q /\
  (0 <= mental_mutation_rate self)%Q.

(** The offspring of one run of the loop of [evolve_generation], in the
    order of their generation: each comes from a pair sampled from the
    selection and mated at a fresh location, on the tape the previous
    mating left. *)
Inductive generated (mate : mate_method) (selection : list Critter)
    (mp mb : bool) : tape -> list Critter -> tape -> Prop :=
| generated_nil t : generated mate selection mp mb t [] t
| generated_cons t a b t1 c t2 cs t3 :
    random_sample2 selection t = Ok ((a, b), t1) ->
    mate a b Location_init mp mb t1 = Ok (c, t2) ->
    generated mate selection mp mb t2 cs t3 ->
    generated mate selection mp mb t (c :: cs) t3.

(** The vector-matrix product by its entries: entry [j] of [x . m] is the
    sum over the rows [i] of [x[i] * m[i][j]]. *)
Definition entry (m : matrix) (i j : nat) : Q :=
  nth j (nth i (entries m) []) 0%Q.

Definition vector_matrix (x : list Q) (m : matrix) : list Q :=
  map (fun j =>
         fold_right Qplus 0%Q
           (map (fun i => nth i x 0 * entry m i j)%Q (seq 0 (nrows m))))
      (seq 0 (ncols m)).

Definition vector_sum (u v : list Q) : list Q :=
  map (fun j => nth j u 0 + nth j v 0)%Q (seq 0 (length u)).

(** The sequence of activations: [activation[0] = x] and
    [activation[i+1] = activation_fn[i](activation[i] . coefficient[i] +
    bias[i])]. *)
Fixpoint activations (fs : list activation) (ms : list matrix)
    (bs : list (list Q)) (x : list Q) {struct ms} : list (list Q) :=
  x :: match ms, fs, bs with
       | m :: ms', f :: fs', b :: bs' =>
           activations fs' ms' bs' (f (vector_sum (vector_matrix x m) b))
       | _, _, _ => []
       end.

(** The shapes chain: the input has the rows of the first matrix, every
    matrix is rectangular, its bias and the output of its activation have
    its columns, which are the rows of the next matrix. *)
Fixpoint chained (w : nat) (fs : list activation) (ms : list matrix)
    (bs : list (list Q)) {struct ms} : Prop :=
  match ms, fs, bs with
  | m :: ms', f :: fs', b :: bs' =>
      nrows m = w /\ wf_matrix m /\ length b = ncols m /\
      (forall v, length v = ncols m -> length (f v) = ncols m) /\
      chained (ncols m) fs' ms' bs'
  | _, _, _ => True
  end.

(** The width of the output layer. *)
Definition output_width (w : nat) (ms : list matrix) : nat :=
  match last ms with
  | Some m => ncols m
  | None => w
  end.

Definition all_zero (v : list Q) : Prop := Forall (fun q => q == 0)%Q v.

(** ** Examples *)

Module Example.

(** The floats [0.5], [0.3] and [2/3]. *)
Definition half : float64 := Float64 (1 # 2) eq_refl.

Definition three_tenths : float64 :=
  Float64 (5404319552844595 # 18014398509481984) eq_refl.


Definition ga : GlobalGA :=
  {| selection_frac := half; crossover_rate := 1 # 2;
     physical_mutation_rate := 0; mental_mutation_rate := 0 |}.

Definition identity : activation := fun v => v.

Definition weights : matrix := Matrix 2 3 [[1; 2; 3]; [4; 5; 6]]%Q.

Definition a_brain : Brain :=
  {| afs := [identity]; coefs := [weights]; intercepts := [[0; 0; 0]%Q];
     _n_layers := 2 |}.

Definition wide_brain : Brain :=
  {| afs := [identity; identity];
     coefs := [weights; Matrix 3 1 [[1]; [1]; [1]]%Q];
     intercepts := [[0; 0; 0]%Q; [0]%Q];
     _n_layers := 3 |}.

Definition a_physique : Physique :=
  Physique_init (VFloat 1) (VFloat 2) (VFloat 3) (VFloat 4) (VFloat 5).

Definition eyes : Sensory := Sensory_init ["food"; "wall"].
Definition ears : Sensory := Sensory_init ["noise"].

Definition scored (c : class) (f : Z) : Critter :=
  Critter_init c (Some a_physique) (Some eyes) (Some a_brain) Location_init
    {| kw_fitness := Some f; kw_energy := None |}.

Definition herby (f : Z) : Critter := scored Herby_class f.

(** Fitness [10, 1, 5, 2]. *)
Definition population : list Critter := [herby 10; herby 1; herby 5; herby 2].

Definition mixed : list Critter :=
  [scored Herby_class 10; scored Critter_class 5; herby 1; herby 2].

Definition stranger : Critter :=
  Critter_init Herby_class (Some a_physique) (Some ears) (Some wide_brain)
    Location_init no_kwargs.

Definition a_tape : tape := Tape 0 (fun n => n) 0 (fun n => (n, 2%positive)).

End Example.

(** ** Terms of the further properties *)

(** A float in [0, 1). *)
Definition unit_interval (q : Q) : Prop := (0 <= q)%Q /\ (q < 1)%Q.

(** The width of layer [i] of a tuple of widths. *)
Definition layer_width (lws : list Z) (i : nat) : nat := Z.to_nat (nth i lws 0%Z).

(** The final activation. *)
Definition final_activation (fs : list activation) (ms : list matrix)
    (bs : list (list Q)) (x : list Q) : list Q :=
  List.last (activations fs ms bs x) x.

(** Activations that keep the width of what they are applied to. *)
Definition keeps_width (f : activation) : Prop :=
  forall v, length (f v) = length v.

(** The tape after [n] more draws of [numpy.random]. *)
Definition np_advance (t : tape) (n : nat) : tape :=
  Tape (rnd_pos t) (rnd_src t) (np_pos t + n) (np_src t).

(** Layers that fit a list of widths: layer [i] has a rectangular matrix
    of [ws[i]] rows and [ws[i+1]] columns and an intercept of [ws[i+1]]
    floats, all of them in [0, 1). *)
Fixpoint layers_fit (ws : list nat) (ms : list matrix) (bs : list (list Q))
    {struct ms} : Prop :=
  match ms, bs, ws with
  | [], [], _ => True
  | m :: ms', b :: bs', r :: ((c :: _) as ws') =>
      nrows m = r /\ ncols m = c /\ wf_matrix m /\ length b = c /\
      Forall (Forall unit_interval) (entries m) /\ Forall unit_interval b /\
      layers_fit ws' ms' bs'
  | _, _, _ => False
  end.

(** The number of elements of an array of a shape. *)
Definition shape_size (s : shape) : nat :=
  match s with
  | Shape1 n => n
  | Shape2 r c => r * c
  end.

Module Sample.

(** Layer widths: two inputs, three hidden units, one output. *)
Definition widths : list Z := [2; 3; 1]%Z.

Definition activations_2 : list activation := [Example.identity; Example.identity].

(** A batch of two input vectors. *)
Definition batch : matrix := Matrix 2 2 [[1; 1]; [0; 1]]%Q.

(** The population of [Example.population] in another order. *)
Definition shuffled : list Critter :=
  [Example.herby 1; Example.herby 10; Example.herby 2; Example.herby 5].

(** A population already in decreasing order of fitness, with a tie. *)
Definition ranked : list Critter :=
  [Example.herby 9; Example.herby 4; Example.herby 4; Example.herby 1].

(** Ten individuals, and a configuration that keeps three tenths. *)
Definition ten : list Critter :=
  map Example.herby [1; 2; 3; 4; 5; 6; 7; 8; 9; 10]%Z.

Definition thrifty : GlobalGA :=
  {| selection_frac := Example.three_tenths; crossover_rate := 1 # 2;
     physical_mutation_rate := 0; mental_mutation_rate := 0 |}.

End Sample.

(** ** Properties *)

(** *** The stable sort *)

Section Sorting.
Context {A : Type} (key : A -> Z).

Lemma insert_desc_perm x l : Permutation (x :: l) (insert_desc key x l).
Proof.
  induction l as [|y l IH]; simpl; [reflexivity|].
  destruct (key x <? key y)%Z; [|reflexivity].
  rewrite perm_swap. now apply perm_skip.
Qed.

Lemma sorted_reverse_perm l : Permutation l (sorted_reverse key l).
Proof.
  induction l as [|x l IH]; simpl; [constructor|].
  etransitivity; [apply perm_skip, IH|apply insert_desc_perm].
Qed.

Lemma insert_desc_sorted x l :
  StronglySorted (desc key) l -> StronglySorted (desc key) (insert_desc key x l).
Proof.
  induction 1 as [|y l Hl IH Hy]; simpl.
  - repeat constructor.
  - destruct (Z.ltb_spec (key x) (key y)) as [Hlt|Hge].
    + constructor; [exact IH|].
      apply (Permutation_Forall (insert_desc_perm x l)).
      constructor; [unfold desc; lia|exact Hy].
    + constructor; [now constructor|].
      constructor; [exact Hge|].
      eapply Forall_impl; [exact Hy|]. unfold desc. intros; simpl in *; lia.
Qed.

Lemma sorted_reverse_sorted l : StronglySorted (desc key) (sorted_reverse key l).
Proof.
  induction l; simpl; [constructor|now apply insert_desc_sorted].
Qed.

Lemma with_key_insert_desc k x l :
  StronglySorted (desc key) l ->
  with_key key k (insert_desc key x l) = with_key key k (x :: l).
Proof.
  unfold with_key.
  induction 1 as [|y l Hl IH Hy]; simpl; [reflexivity|].
  destruct (Z.ltb_spec (key x) (key y)) as [Hlt|Hge]; [|reflexivity].
  simpl. rewrite IH. simpl.
  destruct (Z.eqb_spec (key x) k) as [Hx|Hx];
    destruct (Z.eqb_spec (key y) k) as [Hy'|Hy']; try reflexivity.
  lia.
Qed.

Lemma sorted_reverse_stable k l :
  with_key key k (sorted_reverse key l) = with_key key k l.
Proof.
  induction l as [|x l IH]; simpl; [reflexivity|].
  rewrite with_key_insert_desc by apply sorted_reverse_sorted.
  unfold with_key in *. simpl. now rewrite IH.
Qed.

Lemma sorted_reverse_length l : length (sorted_reverse key l) = length l.
Proof. symmetry. apply Permutation_length, sorted_reverse_perm. Qed.

Lemma with_key_head x l :
  with_key key (key x) (x :: l) = x :: with_key key (key x) l.
Proof. unfold with_key. simpl. now rewrite Z.eqb_refl. Qed.

Lemma with_key_other k x l :
  key x <> k -> with_key key k (x :: l) = with_key key k l.
Proof.
  intros H. unfold with_key. simpl.
  now destruct (Z.eqb_spec (key x) k).
Qed.

Lemma with_key_above k x l :
  StronglySorted (desc key) (x :: l) -> (key x < k)%Z ->
  with_key key k (x :: l) = [].
Proof.
  intros Hs Hlt. apply StronglySorted_inv in Hs as [_ Hx].
  rewrite with_key_other by lia.
  induction Hx as [|y l Hy _ IH]; [reflexivity|].
  unfold desc in Hy. rewrite with_key_other by lia. exact IH.
Qed.

(** The sorted list is determined by what it is asked to be: a list in
    decreasing order of the key that holds, for every key, the members of
    [l] with that key in their order in [l].  Every stable sort returns
    it. *)
Lemma stable_sort_unique l1 : forall l2,
  StronglySorted (desc key) l1 -> StronglySorted (desc key) l2 ->
  (forall k, with_key key k l1 = with_key key k l2) ->
  l1 = l2.
Proof.
  induction l1 as [|x l1 IH]; intros [|y l2] H1 H2 Hk.
  - reflexivity.
  - specialize (Hk (key y)). rewrite with_key_head in Hk. discriminate.
  - specialize (Hk (key x)). rewrite with_key_head in Hk. discriminate.
  - assert (Hxy : key x = key y).
    { destruct (Z.lt_trichotomy (key x) (key y)) as [Hlt|[Heq|Hgt]].
      - specialize (Hk (key y)).
        rewrite (with_key_above _ _ _ H1 Hlt), with_key_head in Hk. discriminate.
      - exact Heq.
      - specialize (Hk (key x)).
        rewrite (with_key_above _ _ _ H2 Hgt), with_key_head in Hk. discriminate. }
    pose proof (Hk (key x)) as Hhead.
    rewrite with_key_head, Hxy, with_key_head in Hhead.
    injection Hhead as -> Htail.
    f_equal. apply IH.
    + now apply StronglySorted_inv in H1.
    + now apply StronglySorted_inv in H2.
    + intros k. destruct (Z.eq_dec (key y) k) as [<-|Hne]; [exact Htail|].
      specialize (Hk k). now rewrite !with_key_other in Hk by congruence.
Qed.
End Sorting.

(** *** Floats *)

Section Floats.
Local Open Scope Q_scope.

(** Powers of two. *)
Lemma pow2_pos k : 0 < pow2 k.
Proof. apply Qpower_0_lt. reflexivity. Qed.

Lemma pow2_add a b : pow2 (a + b) == pow2 a * pow2 b.
Proof. apply Qpower_plus. discriminate. Qed.

Lemma pow2_lt a b : (a < b)%Z -> pow2 a < pow2 b.
Proof. intros H. apply Qpower_lt_compat_l; [exact H|reflexivity]. Qed.

Lemma pow2_le a b : (a <= b)%Z -> pow2 a <= pow2 b.
Proof. intros H. apply Qpower_le_compat_l; [exact H|discriminate]. Qed.

Lemma pow2_lt_inv a b : pow2 a < pow2 b -> (a < b)%Z.
Proof. intros H. apply (Qpower_lt_compat_l_inv 2); [exact H|reflexivity]. Qed.

Lemma pow2_inject k : (0 <= k)%Z -> pow2 k == inject_Z (2 ^ k).
Proof. intros H. unfold pow2. now rewrite Zpower_Qpower. Qed.

Lemma pow2_succ k : pow2 (k + 1) == 2 * pow2 k.
Proof. rewrite pow2_add. change (pow2 1) with 2. ring. Qed.

Lemma pow2_pred k : pow2 (k - 1) == pow2 k / 2.
Proof.
  replace k with ((k - 1) + 1)%Z at 2 by ring. rewrite pow2_succ. field.
Qed.

(** The binade of a positive rational. *)
Lemma binade_spec x : 0 < x -> pow2 (binade x) <= x /\ x < pow2 (binade x + 1).
Proof.
  intros Hx. destruct x as [n d].
  assert (Hn : (0 < n)%Z) by (unfold Qlt in Hx; simpl in Hx; lia).
  set (ln := Z.log2 n). set (ld := Z.log2 (Z.pos d)).
  destruct (Z.log2_spec n Hn) as [Hn1 Hn2]. fold ln in Hn1, Hn2.
  destruct (Z.log2_spec (Z.pos d) (Pos2Z.is_pos d)) as [Hd1 Hd2]. fold ld in Hd1, Hd2.
  assert (Hln : (0 <= ln)%Z) by apply Z.log2_nonneg.
  assert (Hld : (0 <= ld)%Z) by apply Z.log2_nonneg.
  set (x := n # d) in *.
  set (X := inject_Z n). set (D := inject_Z (Z.pos d)).
  assert (HxD : x * D == X).
  { unfold x, X, D. rewrite (Qmake_Qdiv n d). field.
    intros H. apply (inject_Z_injective (Z.pos d) 0) in H. discriminate. }
  assert (HD : 0 < D) by (unfold D; change 0 with (inject_Z 0); rewrite <- Zlt_Qlt; lia).
  assert (HX1 : pow2 ln <= X)
    by (unfold X; rewrite pow2_inject by lia; now rewrite <- Zle_Qle).
  assert (HX2 : X < pow2 (ln + 1))
    by (unfold X; rewrite pow2_inject by lia; rewrite <- Zlt_Qlt; now rewrite <- Z.add_1_r in Hn2).
  assert (HD1 : pow2 ld <= D)
    by (unfold D; rewrite pow2_inject by lia; now rewrite <- Zle_Qle).
  assert (HD2 : D < pow2 (ld + 1))
    by (unfold D; rewrite pow2_inject by lia; rewrite <- Zlt_Qlt; now rewrite <- Z.add_1_r in Hd2).
  assert (Hup : x < pow2 (ln - ld + 1)).
  { assert (E : pow2 (ln - ld + 1) * pow2 ld == pow2 (ln + 1))
      by (rewrite <- pow2_add; now replace (ln - ld + 1 + ld)%Z with (ln + 1)%Z by ring).
    pose proof (pow2_pos (ln - ld + 1)). pose proof (pow2_pos ld).
    apply Qnot_le_lt. intros Hc. nra. }
  assert (Hlo : pow2 (ln - ld - 1) < x).
  { assert (E : pow2 (ln - ld - 1) * pow2 (ld + 1) == pow2 ln)
      by (rewrite <- pow2_add; now replace (ln - ld - 1 + (ld + 1))%Z with ln by ring).
    pose proof (pow2_pos (ln - ld - 1)). pose proof (pow2_pos (ld + 1)).
    apply Qnot_le_lt. intros Hc. nra. }
  unfold binade. change (Qnum x) with n. change (Qden x) with d. fold ln ld.
  destruct (Qle_bool (pow2 (ln - ld)) x) eqn:E.
  - apply Qle_bool_iff in E. split; assumption.
  - assert (Hlt : x < pow2 (ln - ld)).
    { apply Qnot_le_lt. intros Hc. apply Qle_bool_iff in Hc. congruence. }
    replace (ln - ld - 1 + 1)%Z with (ln - ld)%Z by ring.
    split; [now apply Qlt_le_weak|exact Hlt].
Qed.

Lemma binade_unique x k :
  pow2 k <= x -> x < pow2 (k + 1) -> binade x = k.
Proof.
  intros H1 H2.
  assert (Hx : 0 < x) by (eapply Qlt_le_trans; [apply pow2_pos|exact H1]).
  destruct (binade_spec x Hx) as [B1 B2].
  assert (Ha : (binade x < k + 1)%Z)
    by (apply pow2_lt_inv; eapply Qle_lt_trans; eassumption).
  assert (Hb : (k < binade x + 1)%Z)
    by (apply pow2_lt_inv; eapply Qle_lt_trans; eassumption).
  lia.
Qed.

Lemma binade_mono x y : 0 < x -> x <= y -> (binade x <= binade y)%Z.
Proof.
  intros Hx Hxy.
  assert (Hy : 0 < y) by (eapply Qlt_le_trans; eassumption).
  destruct (binade_spec x Hx) as [B1 _]. destruct (binade_spec y Hy) as [_ B2].
  assert (H : (binade x < binade y + 1)%Z).
  { apply pow2_lt_inv. eapply Qle_lt_trans; [exact B1|].
    eapply Qle_lt_trans; eassumption. }
  lia.
Qed.

(** Rounding to the nearest integer. *)
Lemma round_half_even_comp y y' : y == y' -> round_half_even y = round_half_even y'.
Proof.
  intros E. unfold round_half_even. rewrite (Qfloor_comp _ _ E).
  assert (C : Qcompare (y - inject_Z (Qfloor y')) (1 # 2)
            = Qcompare (y' - inject_Z (Qfloor y')) (1 # 2))
    by (apply Qcompare_comp; [now rewrite E|reflexivity]).
  now rewrite C.
Qed.

Lemma round_half_even_inject z : round_half_even (inject_Z z) = z.
Proof.
  unfold round_half_even. rewrite Qfloor_Z.
  assert (C : Qcompare (inject_Z z - inject_Z z) (1 # 2) = Lt).
  { rewrite <- Qlt_alt. lra. }
  now rewrite C.
Qed.

Lemma round_half_even_bounds y :
  inject_Z (round_half_even y) - (1 # 2) <= y /\ y <= inject_Z (round_half_even y) + (1 # 2).
Proof.
  pose proof (Qfloor_le y) as H1. pose proof (Qlt_floor y) as H2.
  rewrite inject_Z_plus in H2. change (inject_Z 1) with 1 in H2.
  unfold round_half_even.
  destruct (Qcompare_spec (y - inject_Z (Qfloor y)) (1 # 2)) as [E|E|E].
  - destruct (Z.even (Qfloor y)); [|rewrite inject_Z_plus; change (inject_Z 1) with 1]; lra.
  - lra.
  - rewrite inject_Z_plus; change (inject_Z 1) with 1; lra.
Qed.

Lemma round_half_even_mono y y' : y <= y' -> (round_half_even y <= round_half_even y')%Z.
Proof.
  intros Hy.
  pose proof (Qfloor_resp_le _ _ Hy) as Hf.
  pose proof (Qfloor_le y) as H1. pose proof (Qlt_floor y) as H2.
  pose proof (Qfloor_le y') as H1'. pose proof (Qlt_floor y') as H2'.
  rewrite inject_Z_plus in H2, H2'. change (inject_Z 1) with 1 in H2, H2'.
  unfold round_half_even.
  destruct (Z.eq_dec (Qfloor y) (Qfloor y')) as [E|E].
  - rewrite <- E in *.
    destruct (Qcompare_spec (y - inject_Z (Qfloor y)) (1 # 2)),
             (Qcompare_spec (y' - inject_Z (Qfloor y)) (1 # 2));
      destruct (Z.even (Qfloor y)); try lia; exfalso; lra.
  - assert (Hlt : (Qfloor y + 1 <= Qfloor y')%Z) by lia.
    destruct (Qcompare_spec (y - inject_Z (Qfloor y)) (1 # 2)),
             (Qcompare_spec (y' - inject_Z (Qfloor y')) (1 # 2));
      destruct (Z.even (Qfloor y)); destruct (Z.even (Qfloor y')); lia.
Qed.

Lemma round_half_even_nonneg y : 0 <= y -> (0 <= round_half_even y)%Z.
Proof.
  intros H. change 0%Z with (round_half_even (inject_Z 0)) at 1. rewrite round_half_even_inject.
  rewrite <- (round_half_even_inject 0). now apply round_half_even_mono.
Qed.

Lemma round_half_even_le y z : y <= inject_Z z -> (round_half_even y <= z)%Z.
Proof. intros H. rewrite <- (round_half_even_inject z). now apply round_half_even_mono. Qed.

Lemma round_half_even_ge y z : inject_Z z <= y -> (z <= round_half_even y)%Z.
Proof. intros H. rewrite <- (round_half_even_inject z) at 1. now apply round_half_even_mono. Qed.

(** below half-way to the integer [z], rounding stays under [z] *)
Lemma round_half_even_lt y z : y < inject_Z z - (1 # 2) -> (round_half_even y < z)%Z.
Proof.
  intros H. destruct (round_half_even_bounds y) as [B _].
  assert (L : inject_Z (round_half_even y) < inject_Z z) by lra.
  now rewrite <- Zlt_Qlt in L.
Qed.

(** Rounding to the nearest float. *)
Lemma round64_pos_comp x y : x == y -> 0 < x -> round64_pos x == round64_pos y.
Proof.
  intros E Hx. unfold round64_pos, exponent64.
  assert (B : binade x = binade y).
  { destruct (binade_spec x Hx) as [B1 B2]. symmetry.
    apply binade_unique; now rewrite <- E. }
  rewrite B.
  erewrite (round_half_even_comp (x / _) (y / _)); [reflexivity|now rewrite E].
Qed.

Lemma round64_comp x y : x == y -> round64 x == round64 y.
Proof.
  intros E. unfold round64.
  assert (C : Qcompare x 0 = Qcompare y 0) by (apply Qcompare_comp; [exact E|reflexivity]).
  rewrite <- C. destruct (Qcompare_spec x 0) as [H|H|H].
  - reflexivity.
  - apply Qopp_comp. apply round64_pos_comp; [now rewrite E|lra].
  - now apply round64_pos_comp.
Qed.

#[global] Instance round64_proper : Proper (Qeq ==> Qeq) round64.
Proof. intros x y E. now apply round64_comp. Qed.

Lemma round64_pos_nonneg x : 0 <= x -> 0 <= round64_pos x.
Proof.
  intros Hx. unfold round64_pos.
  pose proof (pow2_pos (exponent64 x)) as Hp.
  assert (H : (0 <= round_half_even (x / pow2 (exponent64 x)))%Z).
  { apply round_half_even_nonneg. apply Qle_shift_div_l; [exact Hp|lra]. }
  rewrite Zle_Qle in H. change (inject_Z 0) with 0 in H. nra.
Qed.

Lemma round64_nonneg x : 0 <= x -> 0 <= round64 x.
Proof.
  intros Hx. unfold round64. destruct (Qcompare_spec x 0) as [H|H|H].
  - lra.
  - lra.
  - apply round64_pos_nonneg. lra.
Qed.

Lemma round64_positive x : 0 < x -> round64 x == round64_pos x.
Proof.
  intros Hx. unfold round64. destruct (Qcompare_spec x 0) as [H|H|H]; lra.
Qed.

(** a positive value keeps between 2^52 and 2^53 units of its exponent *)
Lemma units_bounds x :
  0 < x ->
  x / pow2 (exponent64 x) < pow2 53 /\
  ((-1074 <= binade x - 52)%Z -> pow2 52 <= x / pow2 (exponent64 x)).
Proof.
  intros Hx. destruct (binade_spec x Hx) as [B1 B2].
  pose proof (pow2_pos (exponent64 x)) as Hp.
  split.
  - apply Qlt_shift_div_r; [exact Hp|].
    rewrite <- pow2_add. eapply Qlt_le_trans; [exact B2|].
    apply pow2_le. unfold exponent64. lia.
  - intros Hn. apply Qle_shift_div_l; [exact Hp|].
    rewrite <- pow2_add. eapply Qle_trans; [|exact B1].
    apply pow2_le. unfold exponent64. lia.
Qed.

(** Rounding is monotone. *)
Lemma round64_pos_mono x y : 0 < x -> x <= y -> round64_pos x <= round64_pos y.
Proof.
  intros Hx Hxy.
  assert (Hy : 0 < y) by lra.
  pose proof (binade_mono x y Hx Hxy) as Hb.
  destruct (units_bounds x Hx) as [Ux _].
  destruct (units_bounds y Hy) as [_ Uy].
  unfold round64_pos.
  set (ex := exponent64 x) in *. set (ey := exponent64 y) in *.
  pose proof (pow2_pos ex) as Px. pose proof (pow2_pos ey) as Py.
  destruct (Z.eq_dec ex ey) as [E|E].
  - rewrite <- E in *.
    assert (H : (round_half_even (x / pow2 ex) <= round_half_even (y / pow2 ex))%Z).
    { apply round_half_even_mono. apply Qle_shift_div_l; [exact Px|].
      setoid_replace (x / pow2 ex * pow2 ex) with x using relation Qeq
        by (field; lra).
      exact Hxy. }
    rewrite Zle_Qle in H. nra.
  - assert (Hlt : (ex + 1 <= ey)%Z) by (unfold ex, ey, exponent64 in *; lia).
    assert (Hn : (-1074 <= binade y - 52)%Z) by (unfold ex, ey, exponent64 in *; lia).
    specialize (Uy Hn).
    assert (H1 : (round_half_even (x / pow2 ex) <= 2 ^ 53)%Z).
    { apply round_half_even_le. rewrite <- pow2_inject by lia. lra. }
    assert (H2 : (2 ^ 52 <= round_half_even (y / pow2 ey))%Z).
    { apply round_half_even_ge. rewrite <- pow2_inject by lia. exact Uy. }
    rewrite Zle_Qle in H1, H2.
    rewrite <- pow2_inject in H1, H2 by lia.
    assert (P : pow2 53 * pow2 ex <= pow2 52 * pow2 ey).
    { rewrite <- !pow2_add. apply pow2_le. lia. }
    set (a := inject_Z (round_half_even (x / pow2 ex))) in *.
    set (b := inject_Z (round_half_even (y / pow2 ey))) in *.
    apply Qle_trans with (pow2 53 * pow2 ex); [nra|].
    apply Qle_trans with (pow2 52 * pow2 ey); [exact P|nra].
Qed.

Lemma round64_mono x y : 0 <= x -> x <= y -> round64 x <= round64 y.
Proof.
  intros Hx Hxy. unfold round64 at 1.
  destruct (Qcompare_spec x 0) as [H|H|H]; try lra.
  - apply round64_nonneg. lra.
  - rewrite (round64_positive y) by lra. now apply round64_pos_mono.
Qed.

(** Floats are fixed by the rounding. *)
Lemma round64_pos_units m e :
  (2 ^ 52 <= m < 2 ^ 53)%Z -> (-1074 <= e)%Z ->
  round64_pos (inject_Z m * pow2 e) == inject_Z m * pow2 e.
Proof.
  intros Hm He.
  pose proof (pow2_pos e) as Pe.
  assert (M1 : pow2 52 <= inject_Z m)
    by (rewrite pow2_inject by lia; rewrite <- Zle_Qle; lia).
  assert (M2 : inject_Z m < pow2 53)
    by (rewrite pow2_inject by lia; rewrite <- Zlt_Qlt; lia).
  assert (B : binade (inject_Z m * pow2 e) = (52 + e)%Z).
  { apply binade_unique.
    - rewrite pow2_add. pose proof (pow2_pos 52). nra.
    - replace (52 + e + 1)%Z with (53 + e)%Z by ring. rewrite pow2_add. nra. }
  unfold round64_pos, exponent64. rewrite B.
  replace (Z.max (52 + e - 52) (-1074)) with e by lia.
  erewrite (round_half_even_comp _ (inject_Z m)); [|field; lra].
  now rewrite round_half_even_inject.
Qed.

Lemma round64_pos_subnormal m :
  (0 < m < 2 ^ 52)%Z ->
  round64_pos (inject_Z m * pow2 (-1074)) == inject_Z m * pow2 (-1074).
Proof.
  intros Hm.
  pose proof (pow2_pos (-1074)) as Pe.
  assert (M0 : 0 < inject_Z m)
    by (change 0 with (inject_Z 0); rewrite <- Zlt_Qlt; lia).
  assert (M2 : inject_Z m < pow2 52)
    by (rewrite pow2_inject by lia; rewrite <- Zlt_Qlt; lia).
  assert (Hx : 0 < inject_Z m * pow2 (-1074)) by nra.
  destruct (binade_spec _ Hx) as [B1 _].
  assert (B : (binade (inject_Z m * pow2 (-1074)) < 52 + -1074)%Z).
  { apply pow2_lt_inv. eapply Qle_lt_trans; [exact B1|]. rewrite pow2_add. nra. }
  unfold round64_pos, exponent64.
  replace (Z.max _ (-1074)) with (-1074)%Z by lia.
  erewrite (round_half_even_comp _ (inject_Z m)); [|field; lra].
  now rewrite round_half_even_inject.
Qed.

Lemma pow2_52 : pow2 52 == 4503599627370496.
Proof. reflexivity. Qed.

Lemma pow2_53 : pow2 53 == 9007199254740992.
Proof. reflexivity. Qed.

Lemma pow2_m53 : pow2 (-53) == 1 # 9007199254740992.
Proof. reflexivity. Qed.

Lemma inject_Z_pred m : inject_Z (m - 1) == inject_Z m - 1.
Proof. unfold Z.sub. rewrite inject_Z_plus. reflexivity. Qed.

Lemma round64_units m e :
  (2 ^ 52 <= m < 2 ^ 53)%Z -> (-1074 <= e)%Z ->
  round64 (inject_Z m * pow2 e) == inject_Z m * pow2 e.
Proof.
  intros Hm He. rewrite round64_positive.
  - now apply round64_pos_units.
  - pose proof (pow2_pos e).
    assert (0 < inject_Z m)
      by (change 0 with (inject_Z 0); rewrite <- Zlt_Qlt; lia).
    nra.
Qed.

(** short of half-way to [m] units, a value rounds to at most [m - 1] units *)
Lemma round64_below x m e :
  (2 ^ 52 < m <= 2 ^ 53)%Z -> (-1074 <= e)%Z ->
  0 <= x -> x < (inject_Z m - (1 # 2)) * pow2 e ->
  round64 x <= (inject_Z m - 1) * pow2 e.
Proof.
  intros Hm He Hx Hlt.
  pose proof (pow2_pos e) as Pe.
  assert (M1 : pow2 52 + 1 <= inject_Z m).
  { rewrite pow2_inject by lia. change 1 with (inject_Z 1).
    rewrite <- inject_Z_plus, <- Zle_Qle. lia. }
  assert (M2 : inject_Z m <= pow2 53)
    by (rewrite pow2_inject by lia; rewrite <- Zle_Qle; lia).
  rewrite pow2_52 in M1. rewrite pow2_53 in M2.
  destruct (Qlt_le_dec ((inject_Z m - 1) * pow2 e) x) as [Hc|Hc].
  - assert (Hx0 : 0 < x) by nra.
    assert (B : binade x = (52 + e)%Z).
    { apply binade_unique.
      - rewrite pow2_add, pow2_52. nra.
      - replace (52 + e + 1)%Z with (53 + e)%Z by ring. rewrite pow2_add, pow2_53. nra. }
    rewrite round64_positive by exact Hx0.
    unfold round64_pos, exponent64. rewrite B.
    replace (Z.max (52 + e - 52) (-1074)) with e by lia.
    assert (R : (round_half_even (x / pow2 e) < m)%Z).
    { apply round_half_even_lt. apply Qlt_shift_div_r; [exact Pe|exact Hlt]. }
    assert (R' : (round_half_even (x / pow2 e) <= m - 1)%Z) by lia.
    rewrite Zle_Qle, inject_Z_pred in R'. nra.
  - rewrite <- inject_Z_pred.
    rewrite <- (round64_units (m - 1) e) by lia.
    apply round64_mono; [exact Hx|]. now rewrite inject_Z_pred.
Qed.

Lemma binade_one_le x : 1 <= x -> (0 <= binade x)%Z.
Proof.
  intros H. replace 0%Z with (binade 1) by reflexivity.
  apply binade_mono; [reflexivity|exact H].
Qed.

(** a positive integer times a factor that keeps [2^-53] below one rounds to
    less than the integer, however the integer itself was rounded *)
Lemma round64_product_below (N : Z) (sf : Q) :
  (1 <= N)%Z -> 0 < sf -> sf <= 1 - pow2 (-53) ->
  round64 (round64 (inject_Z N) * sf) < inject_Z N.
Proof.
  intros HN Hs0 Hs1. rewrite pow2_m53 in Hs1.
  set (X := inject_Z N).
  assert (HX : 1 <= X) by (unfold X; change 1 with (inject_Z 1); now rewrite <- Zle_Qle).
  assert (HX0 : 0 < X) by lra.
  pose proof (binade_one_le X HX) as Hb.
  destruct (units_bounds X HX0) as [U1 U2].
  assert (E : exponent64 X = (binade X - 52)%Z) by (unfold exponent64; lia).
  specialize (U2 ltac:(lia)).
  rewrite (round64_positive X HX0). unfold round64_pos.
  set (e := exponent64 X) in *.
  assert (He : (-52 <= e)%Z) by lia.
  set (m := round_half_even (X / pow2 e)).
  pose proof (pow2_pos e) as Pe.
  assert (Hm1 : (2 ^ 52 <= m)%Z)
    by (apply round_half_even_ge; rewrite <- pow2_inject by lia; exact U2).
  assert (Hm2 : (m <= 2 ^ 53)%Z)
    by (apply round_half_even_le; rewrite <- pow2_inject by lia; lra).
  destruct (round_half_even_bounds (X / pow2 e)) as [R1 _]. fold m in R1.
  assert (XE : X == X / pow2 e * pow2 e) by (field; lra).
  rewrite pow2_52 in U2.
  assert (Ppred : pow2 (e - 1) == pow2 e * (1 # 2)) by (rewrite pow2_pred; field).
  set (p := pow2 e) in *. set (Y := X / p) in *.
  assert (P0 : 0 <= p * sf) by nra.
  assert (P1 : p * sf <= p * (1 - (1 # 9007199254740992))) by nra.
  assert (M0 : 0 < inject_Z m)
    by (change 0 with (inject_Z 0); rewrite <- Zlt_Qlt; lia).
  assert (Pp : pow2 e == p) by reflexivity.
  clearbody p Y. clear E Hb U1.
  destruct (Z.eq_dec m (2 ^ 52)%Z) as [Em|Em].
  - rewrite Em. change (inject_Z (2 ^ 52)) with 4503599627370496.
    apply Qle_lt_trans with (inject_Z (2 ^ 53 - 1) * pow2 (e - 1)).
    + rewrite <- (round64_units (2 ^ 53 - 1) (e - 1)) by lia.
      apply round64_mono; [nra|].
      rewrite Ppred. change (inject_Z (2 ^ 53 - 1)) with 9007199254740991.
      setoid_replace (4503599627370496 * p * sf)
        with (4503599627370496 * (p * sf)) using relation Qeq by ring.
      lra.
    + rewrite Ppred. change (inject_Z (2 ^ 53 - 1)) with 9007199254740991. nra.
  - assert (M1 : pow2 52 + 1 <= inject_Z m).
    { rewrite pow2_inject by lia. change 1 with (inject_Z 1).
      rewrite <- inject_Z_plus, <- Zle_Qle. lia. }
    rewrite pow2_52 in M1.
    apply Qle_lt_trans with ((inject_Z m - 1) * pow2 e).
    + apply round64_below; [lia|lia|nra|].
      rewrite Pp.
      setoid_replace (inject_Z m * p * sf) with (inject_Z m * (p * sf))
        using relation Qeq by ring.
      nra.
    + rewrite Pp. nra.
Qed.

(** A float below one is at most [1 - 2^-53]. *)
Lemma representable_below_one x :
  representable x = true -> 0 < x -> x < 1 -> x <= 1 - pow2 (-53).
Proof.
  intros Hr H0 H1. rewrite pow2_m53.
  apply andb_prop in Hr. destruct Hr as [Hr _]. apply Qeq_bool_eq in Hr.
  destruct (Qlt_le_dec x (1 # 2)) as [Hh|Hh]; [lra|].
  assert (B : binade x = (-1)%Z).
  { apply binade_unique; [exact Hh|exact H1]. }
  rewrite (round64_positive x H0) in Hr. unfold round64_pos, exponent64 in Hr.
  rewrite B in Hr. change (Z.max (-1 - 52) (-1074)) with (-53)%Z in Hr.
  set (k := round_half_even (x / pow2 (-53))) in *.
  rewrite pow2_m53 in Hr.
  assert (K : inject_Z k < inject_Z (2 ^ 53)).
  { change (inject_Z (2 ^ 53)) with 9007199254740992. lra. }
  rewrite <- Zlt_Qlt in K.
  assert (K' : (k <= 2 ^ 53 - 1)%Z) by lia.
  rewrite Zle_Qle in K'. change (inject_Z (2 ^ 53 - 1)) with 9007199254740991 in K'.
  lra.
Qed.
End Floats.

(** The product of [_select]. *)
Lemma scaled_0 f : (scaled 0 f == 0)%Q.
Proof.
  unfold scaled, float_mul, float_of_int.
  change (round64 (inject_Z (Z.of_nat 0))) with 0%Q.
  setoid_replace (0 * f)%Q with 0%Q using relation Qeq by ring. reflexivity.
Qed.

Lemma scaled_nonneg n f : (0 <= f)%Q -> (0 <= scaled n f)%Q.
Proof.
  intros Hf. unfold scaled, float_mul, float_of_int.
  apply round64_nonneg. apply Qmult_le_0_compat; [|exact Hf].
  apply round64_nonneg. change 0%Q with (inject_Z 0). rewrite <- Zle_Qle. lia.
Qed.

Lemma scaled_lt n (f : float64) :
  1 <= n -> (0 < f)%Q -> (f < 1)%Q -> (scaled n f < inject_Z (Z.of_nat n))%Q.
Proof.
  intros Hn H0 H1. unfold scaled, float_mul, float_of_int.
  apply round64_product_below; [lia|exact H0|].
  apply representable_below_one; [apply float_exact|exact H0|exact H1].
Qed.

(** *** The configuration and the number of parents *)

Lemma Qlt_bool_lt a b : Qlt_bool a b = true -> (a < b)%Q.
Proof.
  unfold Qlt_bool. intros H. apply Qnot_le_lt. intros Hle.
  apply Qle_bool_iff in Hle. rewrite Hle in H. discriminate.
Qed.

Lemma GlobalGA_init_ok sf cr pm mm self :
  GlobalGA_init sf cr pm mm = Ok self ->
  self = {| selection_frac := sf; crossover_rate := cr;
            physical_mutation_rate := pm; mental_mutation_rate := mm |} /\
  valid_config self.
Proof.
  unfold GlobalGA_init, assert.
  destruct (Qlt_bool 0 sf) eqn:H1; [|discriminate].
  destruct (Qlt_bool sf 1) eqn:H2; [|discriminate].
  destruct (Qle_bool 0 cr) eqn:H3; [|discriminate].
  destruct (Qle_bool cr 1) eqn:H4; [|discriminate].
  destruct (Qle_bool 0 pm) eqn:H5; [|discriminate].
  destruct (Qle_bool 0 mm) eqn:H6; [|discriminate].
  simpl. intros [= <-]. split; [reflexivity|].
  unfold valid_config; simpl.
  repeat split; auto using Qlt_bool_lt; now apply Qle_bool_iff.
Qed.

Lemma py_int_floor q : (0 <= q)%Q -> py_int q = Qfloor q.
Proof.
  destruct q as [n d]. unfold Qle, py_int, Qfloor. simpl. intros H.
  apply Z.quot_div_nonneg; lia.
Qed.

Section ParentCount.
Variable self : GlobalGA.
Hypothesis Hvalid : valid_config self.

Local Abbreviation product n := (scaled n (selection_frac self)).

Lemma product_nonneg n : (0 <= product n)%Q.
Proof.
  destruct Hvalid as (H0 & _). apply scaled_nonneg. now apply Qlt_le_weak.
Qed.

Lemma floor_product_nonneg n : (0 <= Qfloor (product n))%Z.
Proof.
  change 0%Z with (Qfloor (inject_Z 0)) at 1.
  apply Qfloor_resp_le, product_nonneg.
Qed.

Lemma floor_product_lt n : 1 <= n -> (Qfloor (product n) < Z.of_nat n)%Z.
Proof.
  intros Hn. destruct Hvalid as (H0 & H1 & _).
  rewrite Zlt_Qlt. eapply Qle_lt_trans; [apply Qfloor_le|].
  now apply scaled_lt.
Qed.

Lemma parent_count_le n : parent_count n (selection_frac self) <= n.
Proof.
  unfold parent_count.
  destruct n as [|n].
  - assert (H : Qfloor (product 0) = 0%Z)
      by (now rewrite (Qfloor_comp _ _ (scaled_0 (selection_frac self)))).
    rewrite H. simpl. lia.
  - pose proof (floor_product_lt (S n)). lia.
Qed.

Lemma parent_count_lt n : 1 <= n -> parent_count n (selection_frac self) < n.
Proof.
  intros Hn. unfold parent_count.
  pose proof (floor_product_lt n Hn). pose proof (floor_product_nonneg n). lia.
Qed.

Lemma select_firstn critters :
  _select self critters =
  firstn (parent_count (length critters) (selection_frac self))
    (sorted_reverse fitness critters).
Proof.
  unfold _select, slice_to, parent_count.
  rewrite sorted_reverse_length.
  change (float_mul (float_of_int (Z.of_nat (length critters))) (selection_frac self))
    with (product (length critters)).
  rewrite py_int_floor by apply product_nonneg.
  pose proof (floor_product_nonneg (length critters)) as H.
  apply Z.leb_le in H. now rewrite H.
Qed.

Lemma select_length critters :
  length (_select self critters) =
  parent_count (length critters) (selection_frac self).
Proof.
  rewrite select_firstn, length_firstn, sorted_reverse_length.
  pose proof (parent_count_le (length critters)). lia.
Qed.

Lemma select_length_lt critters :
  1 <= length critters -> length (_select self critters) < length critters.
Proof. intros H. rewrite select_length. now apply parent_count_lt. Qed.

Lemma select_subset critters c : In c (_select self critters) -> In c critters.
Proof.
  rewrite select_firstn. intros H.
  apply (Permutation_in c (Permutation_sym (sorted_reverse_perm fitness critters))).
  rewrite <- (firstn_skipn (parent_count (length critters) (selection_frac self))
                (sorted_reverse fitness critters)).
  apply in_or_app. now left.
Qed.
End ParentCount.

Lemma floor_bounds self n :
  valid_config self ->
  (inject_Z (Z.of_nat (parent_count n (selection_frac self)))
     <= scaled n (selection_frac self))%Q /\
  (scaled n (selection_frac self)
     < inject_Z (Z.of_nat (parent_count n (selection_frac self))) + 1)%Q.
Proof.
  intros Hv. unfold parent_count.
  rewrite Z2Nat.id by (now apply floor_product_nonneg).
  split; [apply Qfloor_le|].
  rewrite <- (inject_Z_plus _ 1). apply Qlt_floor.
Qed.

(** *** Sampling and the mating loop *)

#[local] Arguments Nat.modulo : simpl never.

Ltac run_M :=
  unfold mbind, M_bind, mret, M_ret, fmap, M_fmap, raise, lift; simpl.

Lemma M_bind_ok {A B} (m : M A) (f : A -> M B) t a t' :
  m t = Ok (a, t') -> (m ≫= f) t = f a t'.
Proof. intros H. unfold mbind, M_bind. now rewrite H. Qed.

Lemma M_bind_err {A B} (m : M A) (f : A -> M B) t e :
  m t = Err e -> (m ≫= f) t = Err e.
Proof. intros H. unfold mbind, M_bind. now rewrite H. Qed.

Lemma lookup_In {A} (l : list A) i x : l !! i = Some x -> In x l.
Proof. intros H. apply list_elem_of_In, list_elem_of_lookup. eauto. Qed.

Lemma random_choice_list {A} (l : list A) t :
  l <> [] ->
  exists x t', In x l /\ random_choice (PyList l) t = Ok (x, t').
Proof.
  intros Hl. unfold random_choice.
  destruct l as [|y l]; [contradiction|].
  change (Nat.eqb (length (y :: l)) 0) with false. cbv iota.
  unfold randbelow. run_M.
  set (i := rnd_src t (rnd_pos t) mod S (length l)).
  assert (Hi : i < length (y :: l)) by (apply Nat.mod_upper_bound; discriminate).
  destruct (lookup_lt_is_Some_2 (y :: l) i Hi) as [x Hx].
  rewrite Hx. eexists x, _. split; [|reflexivity].
  exact (lookup_In (y :: l) i x Hx).
Qed.

Lemma random_sample2_short {A} (population : list A) t :
  length population < 2 -> random_sample2 population t = Err ValueError.
Proof.
  intros H. unfold random_sample2.
  destruct (Nat.ltb_spec (length population) 2); [reflexivity|lia].
Qed.

Lemma random_sample2_ok {A} (population : list A) t :
  2 <= length population ->
  exists i j a b t',
    i <> j /\ population !! i = Some a /\ population !! j = Some b /\
    random_sample2 population t = Ok ((a, b), t').
Proof.
  intros Hn. unfold random_sample2.
  destruct (Nat.ltb_spec (length population) 2) as [|_]; [lia|].
  set (n := length population) in *.
  run_M. unfold randbelow. simpl.
  set (i := rnd_src t (rnd_pos t) mod n).
  set (j := rnd_src t (S (rnd_pos t)) mod (n - 1)).
  assert (Hi : i < n) by (apply Nat.mod_upper_bound; lia).
  assert (Hj : j < n - 1) by (apply Nat.mod_upper_bound; lia).
  destruct (lookup_lt_is_Some_2 population i Hi) as [a Ha].
  destruct (lookup_lt_is_Some_2 population (n - 1)) as [z Hz]; [fold n; lia|].
  rewrite Hz, Ha.
  destruct (Nat.eq_dec i j) as [Heq|Hne].
  - exists i, (n - 1), a, z. eexists.
    repeat split; [lia|exact Ha|exact Hz|].
    rewrite <- Heq, list_lookup_insert_eq by (fold n; lia). reflexivity.
  - destruct (lookup_lt_is_Some_2 population j) as [b Hb]; [fold n; lia|].
    exists i, j, a, b. eexists.
    repeat split; [exact Hne|exact Ha|exact Hb|].
    rewrite list_lookup_insert_ne by exact Hne. rewrite Hb. reflexivity.
Qed.

Section MatingLoop.
Variable mate : mate_method.
Variable selection : list Critter.
Variables mp mb : bool.

Lemma mating_loop_short n pool t :
  length selection < 2 ->
  mating_loop mate (S n) selection mp mb pool t = Err ValueError.
Proof.
  intros H. simpl. run_M. now rewrite random_sample2_short.
Qed.

End MatingLoop.

Section MatingFails.
Variable mate : mate_method.
Variable selection : list Critter.
Variables mp mb : bool.

(** An exception raised by a mating leaves the loop: whatever was
    generated before it is lost. *)
Lemma mating_loop_raises t offspring tk a b t1 e :
  generated mate selection mp mb t offspring tk ->
  random_sample2 selection tk = Ok ((a, b), t1) ->
  mate a b Location_init mp mb t1 = Err e ->
  forall n pool, length offspring < n ->
    mating_loop mate n selection mp mb pool t = Err e.
Proof.
  intros Hgen Hs He.
  induction Hgen as [t|t a' b' t1' c t2 cs t3 Hs' Hc Hgen IH];
    intros [|n] pool Hlen; simpl in Hlen; try lia.
  - simpl. run_M. now rewrite Hs, He.
  - simpl. run_M. rewrite Hs', Hc. apply IH; [assumption..|lia].
Qed.
End MatingFails.

Lemma evolve_generation_with_raises mate self critters mp mb t offspring tk a b t1 e :
  generated mate (_select self critters) mp mb t offspring tk ->
  length offspring < length critters - length (_select self critters) ->
  random_sample2 (_select self critters) tk = Ok ((a, b), t1) ->
  mate a b Location_init mp mb t1 = Err e ->
  evolve_generation_with mate self critters mp mb t = Err e.
Proof.
  intros Hgen Hlen Hs He. unfold evolve_generation_with. run_M.
  now rewrite (mating_loop_raises mate _ mp mb t offspring tk a b t1 e Hgen Hs He).
Qed.

(** *** Crossover and mutation as they are written *)

(** A critter has none of the attributes that [_crossover] reads. *)
Lemma getattr_critter_crossed (c : Critter) :
  Forall (fun att => getattr c att = Err (AttributeError att))
    (Physique_params ++ ["coefs"; "intercepts"]).
Proof. repeat constructor. Qed.

Lemma crossover_raises self primary secondary :
  _crossover self primary secondary = Err (AttributeError "mass").
Proof. reflexivity. Qed.

Lemma crossover_att_blend self a b :
  _crossover_att self (Physique_init (VFloat a) VNone VNone VNone VNone)
    (Physique_init (VFloat b) VNone VNone VNone VNone) "mass"
  = Ok (VFloat (a * (1 - crossover_rate self) + b * crossover_rate self)).
Proof. reflexivity. Qed.

Lemma crossover_att_layers self (p s : Brain) att :
  att = "coefs" \/ att = "intercepts" ->
  _crossover_att self p s att = Err TypeError.
Proof. intros [-> | ->]; reflexivity. Qed.

Lemma Brain_kw_without_afs c i :
  Brain_kw [("coefs", c); ("intercepts", i)] = Err TypeError.
Proof. reflexivity. Qed.

Lemma mutate_physique_raises self physique t :
  _mutate_physique self physique t =
  Err (match physique_dict physique with [] => IndexError | _ => TypeError end).
Proof.
  unfold _mutate_physique. run_M.
  destruct physique as [[|[k v] d]]; reflexivity.
Qed.

Lemma mutate_brain_raises self brain t :
  _mutate_brain self brain t = Err TypeError.
Proof.
  unfold _mutate_brain.
  destruct (random_choice_list ["coefs"; "intercepts"] t) as (att & t' & _ & Hc);
    [discriminate|].
  rewrite (M_bind_ok _ _ _ _ _ Hc). reflexivity.
Qed.

Lemma perturb_scalar rate v t :
  exists u t',
    random_unit t = Ok (u, t') /\
    perturb rate (VFloat v) no_size t =
      Ok (VFloat (v + (v * (1 - rate) + (v * (1 + rate) - v * (1 - rate)) * u)), t').
Proof.
  unfold perturb, np_random_uniform. run_M. unfold random_unit.
  destruct (np_src t (np_pos t)) as [n d]. simpl. eauto.
Qed.

Lemma perturb_zero_rate v t :
  exists q t', perturb 0 (VFloat v) no_size t = Ok (VFloat q, t') /\ (q == v + v)%Q.
Proof.
  destruct (perturb_scalar 0 v t) as (u & t' & _ & H).
  eexists _, t'. split; [exact H|]. ring.
Qed.

Lemma mate_pair_raises self primary secondary location mp mb kw t :
  mate_pair self primary secondary location mp mb kw t =
  Err (if class_eqb (cls primary) (cls secondary)
       then AttributeError "mass" else AssertionError).
Proof.
  unfold mate_pair. run_M.
  destruct (class_eqb (cls primary) (cls secondary)); reflexivity.
Qed.

Lemma class_eqb_eq c d : class_eqb c d = true <-> c = d.
Proof. destruct c, d; simpl; split; congruence. Qed.

(** *** Inference *)

Lemma zip_with_nth {A B C} (f : A -> B -> C) (a : A) (b : B) u : forall v,
  length u = length v ->
  zip_with f u v = map (fun i => f (nth i u a) (nth i v b)) (seq 0 (length u)).
Proof.
  induction u as [|x u IH]; intros [|y v] Hlen; simpl in *; try discriminate.
  - reflexivity.
  - f_equal. rewrite <- seq_shift, map_map. apply IH. lia.
Qed.

Lemma column_nth m j i : nth i (column m j) 0%Q = entry m i j.
Proof.
  unfold column, entry. revert i.
  induction (entries m) as [|row rows IH]; intros [|i]; simpl; auto;
    destruct j; reflexivity.
Qed.

Lemma vector_matrix_length x m : length (vector_matrix x m) = ncols m.
Proof. unfold vector_matrix. now rewrite length_map, length_seq. Qed.

Lemma vector_sum_length u v : length (vector_sum u v) = length u.
Proof. unfold vector_sum. now rewrite length_map, length_seq. Qed.

Lemma np_dot_vector_matrix x m :
  length x = nrows m -> wf_matrix m -> np_dot x m = Ok (vector_matrix x m).
Proof.
  intros Hx [Hrows _]. unfold np_dot, vector_matrix.
  rewrite (proj2 (Nat.eqb_eq _ _) Hx). f_equal.
  apply map_ext. intros j. unfold inner.
  rewrite (zip_with_nth Qmult 0%Q 0%Q).
  - rewrite Hx. f_equal. apply map_ext. intros i. now rewrite column_nth.
  - unfold column. rewrite length_map. congruence.
Qed.

Lemma np_add_vector_sum u v :
  length u = length v -> np_add u v = Ok (vector_sum u v).
Proof.
  intros H. unfold np_add, vector_sum.
  rewrite (proj2 (Nat.eqb_eq _ _) H). f_equal.
  now apply zip_with_nth.
Qed.

Lemma Brain_init_ok fs ms bs brain :
  Brain_init fs ms bs = Ok brain ->
  length fs = length ms /\ length bs = length ms /\
  brain = {| afs := fs; coefs := ms; intercepts := bs;
             _n_layers := length ms + 1 |}.
Proof.
  unfold Brain_init, assert.
  destruct (Nat.eqb_spec (length fs) (length ms)) as [H1|]; [|discriminate].
  destruct (Nat.eqb_spec (length ms) (length bs)) as [H2|]; [|discriminate].
  simpl. intros [= <-]. auto.
Qed.

(** The list [activity] of the loop is the sequence of activations. *)
Lemma propagate_activations ms : forall fs bs a fs_done done,
  length fs = length ms -> length bs = length ms ->
  chained (length a) fs ms bs ->
  length fs_done = length done ->
  propagate (fs_done ++ fs)
    (zip (seq (length done) (length ms)) (zip ms bs))
    (done ++ Activity a :: replicate (length ms) Placeholder)
  = Ok (done ++ map Activity (activations fs ms bs a)).
Proof.
  induction ms as [|m ms IH]; intros fs bs a fs_done done Hfs Hbs Hch Hdone.
  - reflexivity.
  - destruct fs as [|f fs]; [discriminate|]. destruct bs as [|b bs]; [discriminate|].
    simpl in Hfs, Hbs. destruct Hch as (Hrows & Hwf & Hb & Hf & Hch).
    cbn [length seq zip zip_with propagate replicate].
    unfold list_item. rewrite lookup_app_r by lia.
    rewrite Hdone, Nat.sub_diag. cbn [lookup list_lookup].
    unfold mbind at 1. cbn [result_bind].
    unfold read_cell. rewrite lookup_app_r by lia.
    rewrite Nat.sub_diag. cbn [lookup list_lookup].
    unfold mbind at 1. cbn [result_bind].
    rewrite np_dot_vector_matrix by (auto; congruence).
    unfold mbind at 1. cbn [result_bind].
    rewrite np_add_vector_sum by (rewrite vector_matrix_length; congruence).
    unfold mbind at 1. cbn [result_bind].
    set (s := vector_sum (vector_matrix a m) b).
    assert (Hs : length s = ncols m)
      by (unfold s; now rewrite vector_sum_length, vector_matrix_length).
    unfold write_cell.
    assert (Hlt : length done + 1 <
                  length (done ++ Activity a :: Placeholder ::
                          replicate (length ms) Placeholder))
      by (rewrite length_app; simpl; lia).
    apply Nat.ltb_lt in Hlt. rewrite Hlt.
    unfold mbind at 1. cbn [result_bind].
    rewrite Nat.add_1_r.
    replace (<[S (length done) := Activity (f s)]>
               (done ++ Activity a :: Placeholder ::
                replicate (length ms) Placeholder))
      with ((done ++ [Activity a]) ++ Activity (f s) ::
            replicate (length ms) Placeholder).
    + replace (S (length done)) with (length (done ++ [Activity a]))
        by (rewrite length_app; simpl; lia).
      replace (fs_done ++ f :: fs) with ((fs_done ++ [f]) ++ fs)
        by (now rewrite <- app_assoc).
      rewrite IH.
      * rewrite <- app_assoc. reflexivity.
      * lia.
      * lia.
      * rewrite (Hf s Hs). exact Hch.
      * rewrite !length_app. simpl. lia.
    + rewrite <- app_assoc. simpl.
      replace (S (length done)) with (length done + 1) by lia.
      rewrite insert_app_r. reflexivity.
Qed.

Lemma output_width_cons w m ms :
  output_width w (m :: ms) = output_width (ncols m) ms.
Proof.
  unfold output_width. destruct ms as [|m0 ms]; [reflexivity|].
  change (last (m :: m0 :: ms)) with (last (m0 :: ms)).
  destruct (last (m0 :: ms)) eqn:E; [reflexivity|].
  apply last_None in E. discriminate.
Qed.

Lemma activations_last ms : forall fs bs x,
  length fs = length ms -> length bs = length ms ->
  chained (length x) fs ms bs ->
  exists out,
    last (activations fs ms bs x) = Some out /\
    length out = output_width (length x) ms.
Proof.
  induction ms as [|m ms IH]; intros fs bs x Hfs Hbs Hch.
  - exists x. split; reflexivity.
  - destruct fs as [|f fs]; [discriminate|]. destruct bs as [|b bs]; [discriminate|].
    simpl in Hfs, Hbs. destruct Hch as (Hrows & Hwf & Hb & Hf & Hch).
    set (s := vector_sum (vector_matrix x m) b).
    assert (Hs : length s = ncols m)
      by (unfold s; now rewrite vector_sum_length, vector_matrix_length).
    destruct (IH fs bs (f s)) as (out & Hlast & Hlen); [lia|lia| |].
    { rewrite (Hf s Hs). exact Hch. }
    exists out. rewrite output_width_cons, <- (Hf s Hs). split; [|exact Hlen].
    cbn [activations]. fold s.
    destruct ms; exact Hlast.
Qed.

Lemma last_map {A B} (f : A -> B) (l : list A) x :
  last l = Some x -> last (map f l) = Some (f x).
Proof.
  induction l as [|y [|z l] IH]; simpl; intros H; try discriminate.
  - now injection H as ->.
  - apply IH. exact H.
Qed.

Lemma Brain_call_vector_activations fs ms bs brain x out :
  Brain_init fs ms bs = Ok brain ->
  chained (length x) fs ms bs ->
  last (activations fs ms bs x) = Some out ->
  Brain_call_vector brain x = Ok out.
Proof.
  intros Hinit Hch Hlast.
  destruct (Brain_init_ok _ _ _ _ Hinit) as (Hfs & Hbs & ->).
  unfold Brain_call_vector, write_cell, enumerate. simpl.
  rewrite length_replicate, Nat.add_1_r. simpl.
  unfold mbind at 1. cbn [result_bind].
  assert (Hzip : length (zip ms bs) = length ms)
    by (rewrite length_zip_with; lia).
  rewrite Hzip.
  pose proof (propagate_activations ms fs bs x [] [] Hfs Hbs Hch eq_refl) as Hp.
  simpl in Hp. rewrite Hp.
  unfold mbind. cbn [result_bind].
  now rewrite (last_map Activity _ _ Hlast).
Qed.

Lemma nth_all_zero v i : all_zero v -> (nth i v 0 == 0)%Q.
Proof.
  intros H. revert i. induction H as [|q v Hq _ IH]; intros [|i]; simpl;
    auto; reflexivity.
Qed.

Lemma sum_all_zero l : all_zero l -> (fold_right Qplus 0 l == 0)%Q.
Proof.
  induction 1 as [|q l Hq _ IH]; simpl; [reflexivity|].
  rewrite Hq, IH. reflexivity.
Qed.

Lemma vector_matrix_zero x m : all_zero x -> all_zero (vector_matrix x m).
Proof.
  intros Hx. unfold all_zero, vector_matrix.
  apply List.Forall_map, Forall_forall. intros j _.
  apply sum_all_zero. unfold all_zero.
  apply List.Forall_map, Forall_forall. intros i _.
  rewrite (nth_all_zero x i Hx). ring.
Qed.

Lemma vector_sum_zero u v : all_zero u -> all_zero v -> all_zero (vector_sum u v).
Proof.
  intros Hu Hv. unfold all_zero, vector_sum.
  apply List.Forall_map, Forall_forall. intros j _.
  rewrite (nth_all_zero u j Hu), (nth_all_zero v j Hv). ring.
Qed.

Lemma activations_zero ms : forall fs bs x out,
  all_zero x -> Forall all_zero bs -> Forall (fun f : activation => forall v, f v = v) fs ->
  last (activations fs ms bs x) = Some out -> all_zero out.
Proof.
  induction ms as [|m ms IH]; intros fs bs x out Hx Hbs Hfs Hlast.
  - simpl in Hlast. now injection Hlast as <-.
  - destruct fs as [|f fs]; [simpl in Hlast; now injection Hlast as <-|].
    destruct bs as [|b bs]; [simpl in Hlast; now injection Hlast as <-|].
    apply Forall_cons in Hbs as [Hb Hbs]. apply Forall_cons in Hfs as [Hf Hfs].
    cbn [activations] in Hlast.
    apply (IH fs bs (f (vector_sum (vector_matrix x m) b)) out); auto.
    + rewrite Hf. apply vector_sum_zero; [now apply vector_matrix_zero|exact Hb].
    + destruct ms; exact Hlast.
Qed.

(** *** Selection, mating and evolution *)

Lemma sorted_app_top {A} (R : A -> A -> Prop) l1 : forall l2,
  StronglySorted R (l1 ++ l2) ->
  forall a b, In a l1 -> In b l2 -> R a b.
Proof.
  induction l1 as [|x l1 IH]; intros l2 Hs a b Ha Hb; [destruct Ha|].
  simpl in Hs. apply StronglySorted_inv in Hs as [Hs Hx].
  destruct Ha as [<- | Ha].
  - rewrite List.Forall_forall in Hx. apply Hx, in_or_app. now right.
  - now apply (IH l2).
Qed.

Section Evolution.
Variable sf : float64.
Variables cr pm mm : Q.
Variable self : GlobalGA.
Hypothesis Hinit : GlobalGA_init sf cr pm mm = Ok self.

Lemma init_valid : valid_config self.
Proof. now destruct (GlobalGA_init_ok _ _ _ _ _ Hinit). Qed.

Lemma init_selection_frac : selection_frac self = sf.
Proof. now destruct (GlobalGA_init_ok _ _ _ _ _ Hinit) as [-> _]. Qed.

Lemma select_parents critters :
  _select self critters =
  firstn (parent_count (length critters) sf) (sorted_reverse fitness critters).
Proof. rewrite <- init_selection_frac. apply select_firstn, init_valid. Qed.

Lemma select_parents_length critters :
  length (_select self critters) = parent_count (length critters) sf.
Proof. rewrite <- init_selection_frac. apply select_length, init_valid. Qed.

Lemma select_parents_le critters :
  length (_select self critters) <= length critters.
Proof.
  rewrite select_parents_length, <- init_selection_frac.
  apply parent_count_le, init_valid.
Qed.

Lemma select_top critters a b :
  In a (_select self critters) ->
  In b (skipn (parent_count (length critters) sf)
          (sorted_reverse fitness critters)) ->
  fitter_first a b.
Proof.
  rewrite select_parents. intros Ha Hb.
  eapply (sorted_app_top fitter_first); [|exact Ha|exact Hb].
  rewrite firstn_skipn. apply sorted_reverse_sorted.
Qed.

Lemma evolve_generation_short critters mp mb t :
  1 <= length critters ->
  length (_select self critters) < 2 ->
  evolve_generation self critters mp mb t = Err ValueError.
Proof.
  intros Hn Hsel. unfold evolve_generation, evolve_generation_with.
  pose proof (select_length_lt self init_valid critters Hn) as Hlt.
  destruct (length critters - length (_select self critters)) as [|n] eqn:E;
    [lia|].
  apply M_bind_err. now apply mating_loop_short.
Qed.

(** With [GlobalGA.mate_pair] as it is, no generation is returned for a
    population that is not empty. *)
Lemma evolve_generation_raises critters mp mb t :
  1 <= length critters ->
  exists e, evolve_generation self critters mp mb t = Err e.
Proof.
  intros Hn.
  destruct (Nat.lt_ge_cases (length (_select self critters)) 2) as [Hfew|Hpair].
  - exists ValueError. now apply evolve_generation_short.
  - destruct (random_sample2_ok (_select self critters) t Hpair)
      as (i & j & a & b & t1 & _ & _ & _ & Hs).
    eexists. unfold evolve_generation.
    eapply evolve_generation_with_raises;
      [apply generated_nil| |exact Hs|apply mate_pair_raises].
    pose proof (select_length_lt self init_valid critters Hn). simpl. lia.
Qed.

Lemma evolve_generation_empty mp mb t :
  evolve_generation self [] mp mb t = Ok ([], t).
Proof.
  unfold evolve_generation, evolve_generation_with.
  pose proof (select_parents_le []) as H.
  change (length (@nil Critter)) with 0 in H.
  destruct (_select self []) as [|c l]; [reflexivity|simpl in H; lia].
Qed.

(** With two parents or more, the generation ends at its first mating:
    on the assertion of [mate_pair] when the pair sampled is of two
    classes, in [_crossover] when it is of one. *)
Lemma evolve_generation_first_mating critters mp mb t :
  2 <= length (_select self critters) ->
  exists a b t1,
    In a critters /\ In b critters /\
    random_sample2 (_select self critters) t = Ok ((a, b), t1) /\
    evolve_generation self critters mp mb t =
    Err (if class_eqb (cls a) (cls b) then AttributeError "mass" else AssertionError).
Proof.
  intros Hpair.
  pose proof init_valid as Hv.
  destruct (random_sample2_ok (_select self critters) t Hpair)
    as (i & j & a & b & t1 & _ & Ha & Hb & Hs).
  exists a, b, t1.
  split; [eapply select_subset; [exact Hv|eapply lookup_In; exact Ha]|].
  split; [eapply select_subset; [exact Hv|eapply lookup_In; exact Hb]|].
  split; [exact Hs|].
  unfold evolve_generation.
  eapply evolve_generation_with_raises;
    [apply generated_nil| |exact Hs|apply mate_pair_raises].
  assert (Hn : 1 <= length critters).
  { pose proof (select_parents_le critters). lia. }
  pose proof (select_length_lt self Hv critters Hn). simpl. lia.
Qed.

Lemma evolve_generation_no_return critters mp mb t out t' :
  critters <> [] -> evolve_generation self critters mp mb t <> Ok (out, t').
Proof.
  intros Hne Hrun.
  destruct (evolve_generation_raises critters mp mb t) as [e He].
  - destruct critters; [contradiction|simpl; lia].
  - rewrite He in Hrun. discriminate.
Qed.
End Evolution.

(** The population of the example scenario: two parents, one class. *)
Lemma example_generation_raises mp mb t :
  evolve_generation Example.ga Example.population mp mb t
  = Err (AttributeError "mass").
Proof.
  destruct (evolve_generation_first_mating Example.half (1 # 2) 0 0 Example.ga
              eq_refl Example.population mp mb t)
    as (a & b & t1 & Ha & Hb & _ & Hrun); [vm_compute; lia|].
  rewrite Hrun.
  assert (Hcls : forall c, In c Example.population -> cls c = Herby_class)
    by (simpl; intros c [<-|[<-|[<-|[<-|[]]]]]; reflexivity).
  now rewrite (Hcls a Ha), (Hcls b Hb).
Qed.

(** ** The claims *)

(** C1.  The code departs from the claim.  [evolve_generation] mates
    with [GlobalGA.mate_pair], whose crossover raises for every pair of
    critters, so no population of size [N], and none at all, is returned
    for a population of two or more.  In the example scenario (fitness
    [10, 1, 5, 2], [selection_frac = 0.5]) two parents are selected and
    the first mating raises the [AttributeError] of
    [getattr(primary, "mass")], whatever the flags and the draws.  For
    every accepted configuration and every population of two or more, the
    generation ends with the [ValueError] of [random.sample] when fewer
    than two parents are selected, and otherwise at the first mating, with
    that [AttributeError] or the [AssertionError] of a pair of two
    classes. *)
Theorem evolve_generation_size_departs :
  GlobalGA_init Example.half (1 # 2) 0 0 = Ok Example.ga /\
  length Example.population = 4 /\
  length (_select Example.ga Example.population) = 2 /\
  (forall mp mb t,
     evolve_generation Example.ga Example.population mp mb t
     = Err (AttributeError "mass")) /\
  (forall sf cr pm mm self critters mp mb t,
     GlobalGA_init sf cr pm mm = Ok self ->
     2 <= length critters ->
     (forall out t', evolve_generation self critters mp mb t <> Ok (out, t')) /\
     (length (_select self critters) < 2 ->
      evolve_generation self critters mp mb t = Err ValueError) /\
     (2 <= length (_select self critters) ->
      evolve_generation self critters mp mb t = Err (AttributeError "mass") \/
      evolve_generation self critters mp mb t = Err AssertionError)).
Proof.
  split; [reflexivity|]. split; [reflexivity|]. split; [vm_compute; reflexivity|].
  split; [exact example_generation_raises|].
  intros sf cr pm mm self critters mp mb t Hinit Hn.
  split; [|split].
  - intros out t'. eapply evolve_generation_no_return; [exact Hinit|].
    destruct critters; [simpl in Hn; lia|discriminate].
  - intros Hfew. eapply evolve_generation_short; [exact Hinit|lia|exact Hfew].
  - intros Hpair.
    destruct (evolve_generation_first_mating sf cr pm mm self Hinit critters mp mb t
                Hpair) as (a & b & t1 & _ & _ & _ & Hrun).
    rewrite Hrun. destruct (class_eqb (cls a) (cls b)); auto.
Qed.

(** C2.  The code departs from the claim.  The top
    [floor(N * selection_frac)] individuals are selected, but
    [evolve_generation] has no output for them to appear in: for every
    accepted configuration and every population that is not empty it
    raises, since no mating returns.  In the example scenario the parents
    are the individuals of fitness 10 and 5, and the generation ends with
    the [AttributeError] of the first crossover. *)
Theorem evolve_generation_elitism_departs :
  _select Example.ga Example.population = [Example.herby 10; Example.herby 5] /\
  (forall mp mb t,
     evolve_generation Example.ga Example.population mp mb t
     = Err (AttributeError "mass")) /\
  (forall sf cr pm mm self critters mp mb t,
     GlobalGA_init sf cr pm mm = Ok self ->
     critters <> [] ->
     let top := firstn (parent_count (length critters) sf)
                  (sorted_reverse fitness critters) in
     _select self critters = top /\
     (forall a b, In a top ->
        In b (skipn (parent_count (length critters) sf)
                (sorted_reverse fitness critters)) ->
        fitter_first a b) /\
     (exists e, evolve_generation self critters mp mb t = Err e) /\
     ~ (exists out t', evolve_generation self critters mp mb t = Ok (out, t'))).
Proof.
  split; [vm_compute; reflexivity|].
  split; [exact example_generation_raises|].
  intros sf cr pm mm self critters mp mb t Hinit Hne top.
  pose proof (select_parents sf cr pm mm self Hinit critters) as Hsel.
  fold top in Hsel.
  split; [exact Hsel|]. split; [|split].
  - intros a b Ha Hb. rewrite <- Hsel in Ha. eapply select_top; eassumption.
  - eapply evolve_generation_raises; [exact Hinit|].
    destruct critters; [contradiction|simpl; lia].
  - intros (out & t' & Hrun).
    exact (evolve_generation_no_return sf cr pm mm self Hinit critters mp mb t
             out t' Hne Hrun).
Qed.

(** C3.  The code departs from the claim.  [_mutate_physique] hands the
    key view of [physique.__dict__] to [random.choice], which cannot index
    it: every call on a physique raises [TypeError] and no trait is
    replaced.  The value it would assign is [val] plus the draw from
    [[val * (1 - rate), val * (1 + rate)]], so that with rate 0 a trait
    [v] would become [v + v]: a trait 3 becomes 6, and a layer [[1, 2]]
    becomes [[2, 4]]. *)
Theorem mutate_physique_departs :
  (forall self mass max_s max_dsp max_dsn max_dh t,
     _mutate_physique self (Physique_init mass max_s max_dsp max_dsn max_dh) t
     = Err TypeError) /\
  (forall self physique t, exists e, _mutate_physique self physique t = Err e) /\
  (forall v t, exists q t',
     perturb 0 (VFloat v) no_size t = Ok (VFloat q, t') /\ (q == v + v)%Q) /\
  (exists q t',
     perturb 0 (VFloat 3) no_size Example.a_tape = Ok (VFloat q, t') /\
     (q == 6)%Q /\ ~ (q == 3)%Q) /\
  (exists t',
     perturb 0 (VArray (Vec [1; 2]%Q)) val_shape Example.a_tape
     = Ok (VArray (Vec [4 # 2; 8 # 2]%Q), t')).
Proof.
  split; [|split; [|split; [|split]]].
  - intros. now rewrite mutate_physique_raises.
  - intros. eexists. apply mutate_physique_raises.
  - exact perturb_zero_rate.
  - destruct (perturb_zero_rate 3 Example.a_tape) as (q & t' & H & Hq).
    exists q, t'. split; [exact H|]. rewrite Hq. split; [reflexivity|discriminate].
  - eexists. vm_compute. reflexivity.
Qed.

(** C4.  The code departs from the claim.  [_crossover] reads the trait
    names on the critters, not on their physiques: the first read,
    [getattr(primary, "mass")], raises [AttributeError] for every pair of
    critters (which have none of the attributes read) and no blend is
    returned.  The blend it is written to
    compute, [p * (1 - r) + s * r], is what [_crossover_att] returns on
    two physiques; on two brains the layers are lists, which cannot be
    multiplied by a float, and [Brain] cannot be built from the two blended
    attributes alone, for want of [afs]. *)
Theorem crossover_departs :
  (forall self primary secondary,
     _crossover self primary secondary = Err (AttributeError "mass")) /\
  (forall c : Critter,
     Forall (fun att => getattr c att = Err (AttributeError att))
       (Physique_params ++ ["coefs"; "intercepts"])) /\
  (forall self a b,
     _crossover_att self (Physique_init (VFloat a) VNone VNone VNone VNone)
       (Physique_init (VFloat b) VNone VNone VNone VNone) "mass"
     = Ok (VFloat (a * (1 - crossover_rate self) + b * crossover_rate self))) /\
  (forall self (p s : Brain),
     _crossover_att self p s "coefs" = Err TypeError /\
     _crossover_att self p s "intercepts" = Err TypeError) /\
  (forall c i, Brain_kw [("coefs", c); ("intercepts", i)] = Err TypeError).
Proof.
  split; [|split; [|split; [|split]]].
  - exact crossover_raises.
  - exact getattr_critter_crossed.
  - exact crossover_att_blend.
  - intros. split; apply crossover_att_layers; auto.
  - exact Brain_kw_without_afs.
Qed.

(** C5.  For a brain built by [Brain.__init__] whose shapes chain from the
    width of the input vector [x], [Brain.__call__] returns the last
    element of the sequence [activation[0] = x], [activation[i+1] =
    afs[i](activation[i] . coefs[i] + intercepts[i])], a vector of the
    width of the output layer; on an all-zero input, with all-zero
    intercepts and identity activations, that vector is all zero. *)
Theorem brain_call_activations fs ms bs brain x :
  Brain_init fs ms bs = Ok brain ->
  chained (length x) fs ms bs ->
  exists out,
    last (activations fs ms bs x) = Some out /\
    Brain_call brain (Vec x) = Ok (Vec out) /\
    length out = output_width (length x) ms /\
    (all_zero x -> Forall all_zero bs ->
     Forall (fun f : activation => forall v, f v = v) fs ->
     all_zero out).
Proof.
  intros Hinit Hch.
  destruct (Brain_init_ok _ _ _ _ Hinit) as (Hfs & Hbs & _).
  destruct (activations_last ms fs bs x Hfs Hbs Hch) as (out & Hlast & Hlen).
  exists out. repeat split; [exact Hlast| |exact Hlen|].
  - unfold Brain_call.
    now rewrite (Brain_call_vector_activations _ _ _ _ _ _ Hinit Hch Hlast).
  - intros Hx Hb Hf. eapply activations_zero; eassumption.
Qed.

Lemma brain_call_activations_witness :
  Brain_init [Example.identity; Example.identity]
    [Example.weights; Matrix 3 1 [[1]; [1]; [1]]%Q] [[0; 0; 0]%Q; [0]%Q]
  = Ok Example.wide_brain /\
  exists out,
    Brain_call Example.wide_brain (Vec [0; 0]%Q) = Ok (Vec out) /\
    length out = 1 /\ all_zero out.
Proof.
  split; [reflexivity|].
  destruct (brain_call_activations
              [Example.identity; Example.identity]
              [Example.weights; Matrix 3 1 [[1]; [1]; [1]]%Q]
              [[0; 0; 0]%Q; [0]%Q] Example.wide_brain [0; 0]%Q)
    as (out & _ & Hcall & Hlen & Hzero).
  - reflexivity.
  - simpl. unfold wf_matrix. simpl.
    repeat split; auto; repeat constructor.
  - exists out. split; [exact Hcall|]. split; [exact Hlen|].
    apply Hzero; repeat constructor.
Defined.



(** C7.  The code departs from the claim.  [_mutate_brain] passes the list
    [brain.coefs] itself to [range], which takes an [int]: every call
    raises [TypeError], whichever attribute was chosen, and no layer is
    replaced. *)
Theorem mutate_brain_departs :
  (forall (brain : Brain),
     (bound ← getattr brain "coefs"; py_range bound) = Err TypeError) /\
  (forall self brain t, _mutate_brain self brain t = Err TypeError).
Proof.
  split.
  - reflexivity.
  - exact mutate_brain_raises.
Qed.

(** C8, as stated, fails: nothing guards a small population.  On the
    empty population [evolve_generation] returns the empty population; on
    one critter [_select] returns the empty list and [evolve_generation]
    fails inside [random.sample] with its [ValueError]. *)
Lemma small_population_unguarded :
  GlobalGA_init Example.half (1 # 2) 0 0 = Ok Example.ga /\
  evolve_generation Example.ga [] true true Example.a_tape
    = Ok ([], Example.a_tape) /\
  _select Example.ga [] = [] /\
  _select Example.ga [Example.herby 1] = [] /\
  evolve_generation Example.ga [Example.herby 1] true true Example.a_tape
    = Err ValueError.
Proof. repeat split; vm_compute; reflexivity. Qed.

(** C8 (amended).  No guard reports a small population.  Selection does
    not fail; from at most one individual it selects none.  When the
    selection that [_select] makes has fewer than two parents,
    [evolve_generation] returns the empty population for the empty
    population, and for any other population fails with the [ValueError]
    of [random.sample]. *)
Theorem small_population_sampling_error sf cr pm mm self critters mp mb t :
  GlobalGA_init sf cr pm mm = Ok self ->
  length (_select self critters) < 2 ->
  _select self (firstn 1 critters) = [] /\
  evolve_generation self critters mp mb t =
    match critters with
    | [] => Ok ([], t)
    | _ :: _ => Err ValueError
    end.
Proof.
  intros Hinit Hfew. split.
  - pose proof (select_parents_le sf cr pm mm self Hinit (firstn 1 critters)) as Hle.
    destruct critters as [|c critters].
    + change (firstn 1 []) with (@nil Critter) in *.
      destruct (_select self []); [reflexivity|simpl in Hle; lia].
    + change (firstn 1 (c :: critters)) with [c] in *.
      pose proof (select_length_lt self (init_valid sf cr pm mm self Hinit) [c]) as Hlt.
      destruct (_select self [c]); [reflexivity|simpl in Hlt; lia].
  - destruct critters as [|c critters].
    + eapply evolve_generation_empty; exact Hinit.
    + eapply evolve_generation_short; [exact Hinit|simpl; lia|exact Hfew].
Qed.

Lemma small_population_sampling_error_witness :
  GlobalGA_init Example.half (1 # 2) 0 0 = Ok Example.ga /\
  length (_select Example.ga
            [Example.herby 7; Example.herby 8; Example.herby 9]) < 2 /\
  evolve_generation Example.ga
    [Example.herby 7; Example.herby 8; Example.herby 9] false false Example.a_tape
  = Err ValueError.
Proof.
  split; [reflexivity|]. split; [vm_compute; lia|].
  apply (small_population_sampling_error Example.half (1 # 2) 0 0 Example.ga
           [Example.herby 7; Example.herby 8; Example.herby 9]).
  - reflexivity.
  - vm_compute; lia.
Defined.

(** C9, as stated, fails: [mate_pair] compares the classes of the parents
    and nothing else.  Two critters of one class with different sensory
    extractors and different layer topologies pass its assertion; the
    error that follows is not the one of the species check. *)
Lemma sensory_mismatch_unchecked :
  cls (Example.herby 10) = cls Example.stranger /\
  sensory (Example.herby 10) <> sensory Example.stranger /\
  (_n_layers <$> brain (Example.herby 10)) <> (_n_layers <$> brain Example.stranger) /\
  assert (class_eqb (cls (Example.herby 10)) (cls Example.stranger)) = Ok tt /\
  mate_pair Example.ga (Example.herby 10) Example.stranger Location_init
    true true no_kwargs Example.a_tape <> Err AssertionError.
Proof.
  split; [reflexivity|]. split; [discriminate|]. split; [discriminate|].
  split; [reflexivity|]. rewrite mate_pair_raises. discriminate.
Qed.

(** C9 (amended).  Mating two critters of different classes fails the
    assertion of [mate_pair] ([AssertionError]) and produces no offspring.
    The loop of [evolve_generation] does not catch it: when the pair it
    samples first is of two classes, [evolve_generation] fails with that
    error, and whatever exception a mating raises, after any number of
    matings that returned, is the outcome of the generation. *)
Theorem mate_pair_class_mismatch self primary secondary :
  cls primary <> cls secondary ->
  (forall location mp mb kw t,
     mate_pair self primary secondary location mp mb kw t = Err AssertionError) /\
  (forall critters mp mb t t1,
     length (_select self critters) < length critters ->
     random_sample2 (_select self critters) t = Ok ((primary, secondary), t1) ->
     evolve_generation self critters mp mb t = Err AssertionError) /\
  (forall mate critters mp mb t offspring tk t1 e,
     generated mate (_select self critters) mp mb t offspring tk ->
     length offspring < length critters - length (_select self critters) ->
     random_sample2 (_select self critters) tk = Ok ((primary, secondary), t1) ->
     mate primary secondary Location_init mp mb t1 = Err e ->
     evolve_generation_with mate self critters mp mb t = Err e).
Proof.
  intros Hcls.
  assert (Hmate : forall location mp mb kw t,
             mate_pair self primary secondary location mp mb kw t
             = Err AssertionError).
  { intros. rewrite mate_pair_raises.
    destruct (class_eqb (cls primary) (cls secondary)) eqn:E; [|reflexivity].
    apply class_eqb_eq in E. contradiction. }
  split; [exact Hmate|]. split.
  - intros critters mp mb t t1 Hlen Hs. unfold evolve_generation.
    eapply evolve_generation_with_raises;
      [apply generated_nil|simpl; lia|exact Hs|apply Hmate].
  - intros mate critters mp mb t offspring tk t1 e Hgen Hlen Hs He.
    eapply evolve_generation_with_raises; eassumption.
Qed.

Lemma mate_pair_class_mismatch_witness :
  cls (Example.scored Herby_class 10) <> cls (Example.scored Critter_class 5) /\
  mate_pair Example.ga (Example.scored Herby_class 10)
    (Example.scored Critter_class 5) Location_init true true no_kwargs
    Example.a_tape = Err AssertionError /\
  evolve_generation Example.ga Example.mixed true true Example.a_tape
    = Err AssertionError.
Proof.
  assert (Hcls : cls (Example.scored Herby_class 10)
                 <> cls (Example.scored Critter_class 5)) by discriminate.
  split; [exact Hcls|].
  destruct (mate_pair_class_mismatch Example.ga _ _ Hcls) as (Hmate & Hloop & _).
  split; [apply Hmate|].
  apply (Hloop Example.mixed true true Example.a_tape
           (Tape 2 (rnd_src Example.a_tape) 0 (np_src Example.a_tape))).
  - vm_compute; lia.
  - vm_compute; reflexivity.
Defined.

(** C10.  The code departs from the claim.  [mate_pair] calls [_crossover]
    before anything else that follows its assertion, and [_crossover]
    raises for every pair: two critters of one class get
    [AttributeError], two of different classes [AssertionError], and no
    call returns an offspring.  The constructor the offspring would be
    built with keeps the sensory extractor and the location it is given
    and sets the fitness to its default, 0. *)
Theorem mate_pair_departs :
  (forall self primary secondary location mp mb kw t,
     mate_pair self primary secondary location mp mb kw t =
     Err (if class_eqb (cls primary) (cls secondary)
          then AttributeError "mass" else AssertionError)) /\
  mate_pair Example.ga (Example.herby 10) (Example.herby 5) Location_init
    true true no_kwargs Example.a_tape = Err (AttributeError "mass") /\
  mate_pair Example.ga (Example.herby 10) (Example.herby 5) Location_init
    false false no_kwargs Example.a_tape = Err (AttributeError "mass") /\
  (forall c new_physique primary_sensory new_brain location,
     class_call c new_physique primary_sensory new_brain location no_kwargs =
     match c with
     | Plant_class => Err TypeError
     | _ => Ok {| cls := c; physique := new_physique;
                  sensory := primary_sensory; brain := new_brain;
                  location := location; fitness := 0; energy := 0 |}
     end).
Proof.
  split; [exact mate_pair_raises|]. split; [reflexivity|]. split; [reflexivity|].
  intros [] *; reflexivity.
Qed.

(** ** Lemmas for the further properties *)
(** *** Draws of [numpy.random] *)

Lemma random_unit_ok t :
  exists u, random_unit t = Ok (u, np_advance t 1) /\ unit_interval u.
Proof.
  unfold random_unit, np_advance.
  destruct (np_src t (np_pos t)) as [n d].
  eexists. split; [now rewrite Nat.add_1_r|].
  pose proof (Z.mod_pos_bound (Z.of_nat n) (Z.pos d) (Pos2Z.is_pos d)) as [H0 H1].
  unfold unit_interval. rewrite <- Qmake_Qdiv.
  unfold Qle, Qlt. simpl. lia.
Qed.

Lemma np_advance_add t n m : np_advance (np_advance t n) m = np_advance t (n + m).
Proof. unfold np_advance. simpl. now rewrite Nat.add_assoc. Qed.

Lemma random_units_ok n : forall t,
  exists us,
    random_units n t = Ok (us, np_advance t n) /\
    length us = n /\ Forall unit_interval us.
Proof.
  induction n as [|n IH]; intros t.
  - exists []. unfold np_advance. rewrite Nat.add_0_r. destruct t. simpl. auto.
  - destruct (random_unit_ok t) as (u & Hu & Hint).
    destruct (IH (np_advance t 1)) as (us & Hus & Hlen & Hall).
    exists (u :: us). simpl.
    rewrite (M_bind_ok _ _ _ _ _ Hu), (M_bind_ok _ _ _ _ _ Hus).
    rewrite np_advance_add. simpl. repeat split; auto.
Qed.

Lemma random_rows_ok r c : forall t,
  exists rows,
    random_rows r c t = Ok (rows, np_advance t (r * c)) /\
    length rows = r /\
    Forall (fun row => length row = c /\ Forall unit_interval row) rows.
Proof.
  induction r as [|r IH]; intros t.
  - exists []. unfold np_advance. simpl. rewrite Nat.add_0_r. destruct t. auto.
  - destruct (random_units_ok c t) as (row & Hrow & Hlen & Hall).
    destruct (IH (np_advance t c)) as (rows & Hrows & Hlens & Halls).
    exists (row :: rows). simpl.
    rewrite (M_bind_ok _ _ _ _ _ Hrow), (M_bind_ok _ _ _ _ _ Hrows).
    rewrite np_advance_add. repeat split; auto.
Qed.

Lemma np_random_rand1_ok n t :
  (0 <= n)%Z ->
  exists v,
    np_random_rand1 n t = Ok (v, np_advance t (Z.to_nat n)) /\
    length v = Z.to_nat n /\ Forall unit_interval v.
Proof.
  intros Hn. unfold np_random_rand1.
  destruct (Z.ltb_spec n 0); [lia|]. apply random_units_ok.
Qed.

Lemma np_random_rand2_ok r c t :
  (0 <= r)%Z -> (0 <= c)%Z ->
  exists m,
    np_random_rand2 r c t = Ok (m, np_advance t (Z.to_nat r * Z.to_nat c)) /\
    nrows m = Z.to_nat r /\ ncols m = Z.to_nat c /\ wf_matrix m /\
    Forall (Forall unit_interval) (entries m).
Proof.
  intros Hr Hc. unfold np_random_rand2.
  destruct (Z.ltb_spec r 0) as [|_]; [lia|]. destruct (Z.ltb_spec c 0) as [|_]; [lia|]. simpl.
  destruct (random_rows_ok (Z.to_nat r) (Z.to_nat c) t) as (rows & Hrows & Hlen & Hall).
  eexists. unfold fmap, M_fmap. rewrite Hrows. split; [reflexivity|].
  unfold wf_matrix. simpl. repeat split; auto.
  - eapply Forall_impl; [exact Hall|]. now intros row [H _].
  - eapply Forall_impl; [exact Hall|]. now intros row [_ H].
Qed.

(** *** Random initialisation *)

Lemma random_init_loop_ok lws n : forall k coefs ints t,
  Forall (fun w => 0 <= w)%Z lws ->
  k + n <= length lws - 1 ->
  exists ms bs t',
    random_init_loop lws (seq k n) coefs ints t = Ok ((coefs ++ ms, ints ++ bs), t') /\
    length ms = n /\ length bs = n /\
    rnd_pos t' = rnd_pos t /\ rnd_src t' = rnd_src t /\ np_src t' = np_src t /\
    layers_fit (drop k (map Z.to_nat lws)) ms bs.
Proof.
  induction n as [|n IH]; intros k coefs ints t Hpos Hk.
  - exists [], [], t. simpl. rewrite !app_nil_r. repeat split; reflexivity.
  - assert (Hk0 : k < length lws) by lia.
    assert (Hk1 : k + 1 < length lws) by lia.
    destruct (lookup_lt_is_Some_2 lws k Hk0) as [a Ha].
    destruct (lookup_lt_is_Some_2 lws (k + 1) Hk1) as [b Hb].
    assert (Ha0 : (0 <= a)%Z).
    { rewrite Forall_lookup in Hpos. exact (Hpos _ _ Ha). }
    assert (Hb0 : (0 <= b)%Z).
    { rewrite Forall_lookup in Hpos. exact (Hpos _ _ Hb). }
    destruct (np_random_rand2_ok a b t Ha0 Hb0) as (m & Hm & Hr & Hc & Hwf & Hum).
    destruct (np_random_rand1_ok b (np_advance t (Z.to_nat a * Z.to_nat b)) Hb0)
      as (v & Hv & Hlv & Huv).
    destruct (IH (S k) (coefs ++ [m]) (ints ++ [v])
                (np_advance (np_advance t (Z.to_nat a * Z.to_nat b)) (Z.to_nat b)))
      as (ms & bs & t' & Hloop & Hlm & Hlb & Ht1 & Ht2 & Ht3 & Hfit); [exact Hpos|lia|].
    exists (m :: ms), (v :: bs), t'.
    cbn [seq random_init_loop]. unfold list_item. rewrite Ha, Hb.
    rewrite (M_bind_ok _ _ t a t eq_refl).
    rewrite (M_bind_ok _ _ t b t eq_refl).
    rewrite (M_bind_ok _ _ _ _ _ Hm).
    rewrite (M_bind_ok _ _ _ b _ eq_refl).
    rewrite (M_bind_ok _ _ _ _ _ Hv).
    rewrite Hloop, <- !app_assoc. simpl.
    split; [reflexivity|]. split; [congruence|]. split; [congruence|].
    split; [exact Ht1|]. split; [exact Ht2|]. split; [exact Ht3|].
    assert (Hd0 : map Z.to_nat lws !! k = Some (Z.to_nat a))
      by (now rewrite list_lookup_fmap, Ha).
    assert (Hd1 : map Z.to_nat lws !! S k = Some (Z.to_nat b))
      by (rewrite list_lookup_fmap; replace (S k) with (k + 1) by lia; now rewrite Hb).
    rewrite (drop_S _ _ _ Hd0). rewrite (drop_S _ _ _ Hd1) in Hfit |- *.
    simpl. repeat split; auto; apply Hwf.
Qed.

Lemma layers_fit_chained ms : forall w ws fs bs,
  layers_fit (w :: ws) ms bs -> length fs = length ms -> Forall keeps_width fs ->
  chained w fs ms bs.
Proof.
  induction ms as [|m ms IH]; intros w ws fs bs Hfit Hlen Hkeep; [exact I|].
  destruct bs as [|b bs]; [contradiction|].
  destruct ws as [|c ws]; [contradiction|].
  destruct fs as [|f fs]; [discriminate|].
  destruct Hfit as (Hr & Hc & Hwf & Hb & _ & _ & Hfit).
  apply Forall_cons in Hkeep as [Hf Hkeep].
  simpl in Hlen.
  cbn [chained]. split; [exact Hr|]. split; [exact Hwf|]. split; [congruence|].
  split.
  - intros v Hv. now rewrite Hf.
  - rewrite Hc. apply (IH c ws); auto.
Qed.

Lemma layers_fit_lengths ms : forall ws bs,
  layers_fit ws ms bs -> length bs = length ms.
Proof.
  induction ms as [|m ms IH]; intros ws [|b bs] Hfit; try contradiction; auto.
  destruct ws as [|r [|c ws]]; try contradiction.
  simpl. f_equal. apply (IH (c :: ws)). apply Hfit.
Qed.

Lemma layers_fit_output_width ms : forall w ws bs,
  layers_fit (w :: ws) ms bs -> length ws = length ms ->
  output_width w ms = List.last (w :: ws) 0.
Proof.
  induction ms as [|m ms IH]; intros w ws bs Hfit Hlen.
  - destruct ws; [reflexivity|discriminate].
  - destruct bs as [|b bs]; [contradiction|].
    destruct ws as [|c ws]; [contradiction|].
    destruct Hfit as (_ & Hc & _ & _ & _ & _ & Hfit).
    rewrite output_width_cons, Hc, (IH c ws bs Hfit) by (simpl in Hlen; lia).
    reflexivity.
Qed.

Section RandomInit.
Variable af : list activation.
Variable lws : list Z.
Hypothesis Hwidths : Forall (fun w => 0 <= w)%Z lws.

Lemma random_init_layers t :
  exists ms bs t',
    random_init_loop lws (seq 0 (length lws - 1)) [] [] t = Ok ((ms, bs), t') /\
    length ms = length lws - 1 /\ length bs = length lws - 1 /\
    rnd_pos t' = rnd_pos t /\ rnd_src t' = rnd_src t /\ np_src t' = np_src t /\
    layers_fit (map Z.to_nat lws) ms bs.
Proof.
  destruct (random_init_loop_ok lws (length lws - 1) 0 [] [] t Hwidths)
    as (ms & bs & t' & H); [lia|].
  exists ms, bs, t'. exact H.
Qed.

Lemma random_init_returns t :
  length af = length lws - 1 ->
  exists ms bs t',
    Brain_random_init af lws t =
      Ok ({| afs := af; coefs := ms; intercepts := bs;
             _n_layers := length ms + 1 |}, t') /\
    Brain_init af ms bs =
      Ok {| afs := af; coefs := ms; intercepts := bs; _n_layers := length ms + 1 |} /\
    length ms = length lws - 1 /\
    rnd_pos t' = rnd_pos t /\ rnd_src t' = rnd_src t /\ np_src t' = np_src t /\
    layers_fit (map Z.to_nat lws) ms bs.
Proof.
  intros Haf.
  destruct (random_init_layers t) as (ms & bs & t' & Hloop & Hlm & Hlb & Ht1 & Ht2 & Ht3 & Hfit).
  exists ms, bs, t'.
  assert (Hinit : Brain_init af ms bs =
                  Ok {| afs := af; coefs := ms; intercepts := bs;
                        _n_layers := length ms + 1 |}).
  { unfold Brain_init, assert.
    rewrite (proj2 (Nat.eqb_eq (length af) (length ms))) by congruence.
    rewrite (proj2 (Nat.eqb_eq (length ms) (length bs))) by congruence.
    reflexivity. }
  unfold Brain_random_init. rewrite (M_bind_ok _ _ _ _ _ Hloop).
  unfold lift. rewrite Hinit. auto 10.
Qed.

Lemma random_init_rejects t :
  length af <> length lws - 1 ->
  Brain_random_init af lws t = Err AssertionError.
Proof.
  intros Haf.
  destruct (random_init_layers t) as (ms & bs & t' & Hloop & Hlm & Hlb & _).
  unfold Brain_random_init. rewrite (M_bind_ok _ _ _ _ _ Hloop).
  unfold lift, Brain_init, assert.
  destruct (Nat.eqb_spec (length af) (length ms)) as [E|_]; [congruence|].
  reflexivity.
Qed.
End RandomInit.

(** *** Inference: wrong widths and batches *)

Lemma mapM_ok {A B} (f : A -> result B) (g : A -> B) l :
  Forall (fun x => f x = Ok (g x)) l -> mapM f l = Ok (map g l).
Proof.
  induction 1 as [|x l Hx _ IH]; [reflexivity|].
  simpl. rewrite Hx, IH. reflexivity.
Qed.

Lemma last_List_last {A} (l : list A) x d : last l = Some x -> List.last l d = x.
Proof.
  induction l as [|y [|z l] IH]; simpl; intros H; try discriminate.
  - now injection H.
  - apply IH. exact H.
Qed.

Lemma same_lengths_all w (l : list (list Q)) :
  Forall (fun v => length v = w) l -> same_lengths l = true.
Proof.
  intros H. destruct H as [|v l Hv Hl]; [reflexivity|].
  simpl. apply forallb_forall. intros u Hu.
  rewrite List.Forall_forall in Hl. apply Nat.eqb_eq. rewrite (Hl u Hu). auto.
Qed.

Lemma concat_length_all w (l : list (list Q)) :
  Forall (fun v => length v = w) l -> length (concat l) = length l * w.
Proof.
  induction 1 as [|v l Hv _ IH]; [reflexivity|].
  simpl. rewrite length_app, Hv, IH. reflexivity.
Qed.

Section Inference.
Variables (fs : list activation) (ms : list matrix) (bs : list (list Q)).
Variable brain : Brain.
Hypothesis Hinit : Brain_init fs ms bs = Ok brain.

Lemma Brain_call_vector_final x :
  chained (length x) fs ms bs ->
  Brain_call_vector brain x = Ok (final_activation fs ms bs x) /\
  length (final_activation fs ms bs x) = output_width (length x) ms.
Proof.
  intros Hch.
  destruct (Brain_init_ok _ _ _ _ Hinit) as (Hfs & Hbs & _).
  destruct (activations_last ms fs bs x Hfs Hbs Hch) as (out & Hlast & Hlen).
  unfold final_activation. rewrite (last_List_last _ _ x Hlast).
  split; [|exact Hlen].
  eapply Brain_call_vector_activations; eassumption.
Qed.

Lemma Brain_call_batch xs :
  wf_matrix xs -> chained (ncols xs) fs ms bs ->
  Brain_call brain (Mat xs) =
    Ok (Vec (concat (map (final_activation fs ms bs) (entries xs)))) /\
  length (concat (map (final_activation fs ms bs) (entries xs))) =
    nrows xs * output_width (ncols xs) ms.
Proof.
  intros [Hrows Hcols] Hch.
  assert (Hall : Forall (fun row =>
                   Brain_call_vector brain row = Ok (final_activation fs ms bs row) /\
                   length (final_activation fs ms bs row) = output_width (ncols xs) ms)
                 (entries xs)).
  { eapply Forall_impl; [exact Hcols|]. intros row Hrow. simpl in Hrow.
    rewrite <- Hrow in *. now apply Brain_call_vector_final. }
  assert (Hlens : Forall (fun v => length v = output_width (ncols xs) ms)
                    (map (final_activation fs ms bs) (entries xs))).
  { apply List.Forall_map. eapply Forall_impl; [exact Hall|]. now intros row [_ H]. }
  split.
  - unfold Brain_call.
    rewrite (mapM_ok _ (final_activation fs ms bs)).
    + unfold mbind, result_bind. now rewrite (same_lengths_all _ _ Hlens).
    + eapply Forall_impl; [exact Hall|]. now intros row [H _].
  - rewrite (concat_length_all _ _ Hlens), length_map, Hrows. reflexivity.
Qed.
End Inference.

Lemma Brain_call_wrong_width f fs m ms b bs brain x :
  Brain_init (f :: fs) (m :: ms) (b :: bs) = Ok brain ->
  length x <> nrows m ->
  Brain_call brain (Vec x) = Err ValueError.
Proof.
  intros Hinit Hx.
  destruct (Brain_init_ok _ _ _ _ Hinit) as (_ & _ & ->).
  unfold Brain_call, Brain_call_vector, write_cell, enumerate. simpl.
  unfold np_dot. destruct (Nat.eqb_spec (length x) (nrows m)); [contradiction|].
  reflexivity.
Qed.

(** *** Selection: order of the population and size of the selection *)

Section Keys.
Context {A : Type} (key : A -> Z).

Lemma with_key_absent k l : ~ In k (map key l) -> with_key key k l = [].
Proof.
  induction l as [|x l IH]; intros H; [reflexivity|].
  simpl in H. rewrite with_key_other by tauto. apply IH. tauto.
Qed.

Lemma with_key_short k l : NoDup (map key l) -> length (with_key key k l) <= 1.
Proof.
  induction l as [|x l IH]; intros H; [simpl; lia|].
  simpl in H. apply NoDup_cons in H as [Hx Hl].
  destruct (Z.eq_dec (key x) k) as [<-|Hne].
  - rewrite with_key_head, with_key_absent; [simpl; lia|].
    now rewrite <- list_elem_of_In.
  - rewrite with_key_other by exact Hne. now apply IH.
Qed.

Lemma with_key_perm k l l' :
  NoDup (map key l) -> Permutation l l' -> with_key key k l = with_key key k l'.
Proof.
  intros Hnd Hp.
  assert (Hf : Permutation (with_key key k l) (with_key key k l')).
  { unfold with_key. clear Hnd. induction Hp; simpl.
    - constructor.
    - destruct (Z.eqb (key x) k); [now constructor|assumption].
    - destruct (Z.eqb (key x) k), (Z.eqb (key y) k); try reflexivity. constructor.
    - etransitivity; eassumption. }
  pose proof (with_key_short k l Hnd) as Hlen.
  destruct (with_key key k l) as [|x [|y r]].
  - symmetry. now apply Permutation_nil.
  - symmetry. now apply Permutation_length_1_inv.
  - simpl in Hlen. lia.
Qed.

Lemma sorted_reverse_perm_eq l l' :
  NoDup (map key l) -> Permutation l l' ->
  sorted_reverse key l' = sorted_reverse key l.
Proof.
  intros Hnd Hp. apply (stable_sort_unique key); try apply sorted_reverse_sorted.
  intros k. rewrite !sorted_reverse_stable. symmetry. now apply with_key_perm.
Qed.

Lemma sorted_reverse_fixed l :
  StronglySorted (desc key) l -> sorted_reverse key l = l.
Proof.
  intros Hs. apply (stable_sort_unique key); [apply sorted_reverse_sorted|exact Hs|].
  intros k. apply sorted_reverse_stable.
Qed.
End Keys.

(** *** The errors of [_crossover_att] *)

Section CrossoverErrors.
Context {T : Type} `{PyObject T}.
Variable self : GlobalGA.
Variables p s : T.
Variable att : string.




End CrossoverErrors.

(** *** The layer a mutation assigns *)

Lemma bdim_refl n : bdim n n = Some n.
Proof. unfold bdim. now rewrite Nat.eqb_refl. Qed.

Lemma shape_eqb_refl s : shape_eqb s s = true.
Proof. destruct s; simpl; now rewrite ?Nat.eqb_refl. Qed.

Lemma arr_map_shape f a : shape_of (arr_map f a) = shape_of a.
Proof. destruct a; simpl; [now rewrite length_map|reflexivity]. Qed.

Lemma broadcast2_same_shape f a b :
  shape_of a = shape_of b ->
  exists c, broadcast2 f a b = Ok c /\ shape_of c = shape_of a.
Proof.
  destruct a as [u|m], b as [v|m']; simpl; intros Hs; try discriminate.
  - injection Hs as Hlen. unfold broadcast2. simpl.
    rewrite <- Hlen, bdim_refl. eexists. split; [reflexivity|].
    simpl. now rewrite length_map, length_seq.
  - injection Hs as Hr Hc. unfold broadcast2. simpl.
    rewrite <- Hr, <- Hc, !bdim_refl. eexists. split; reflexivity.
Qed.

Lemma random_array_shape s t :
  exists a, random_array s t = Ok (a, np_advance t (shape_size s)) /\ shape_of a = s.
Proof.
  destruct s as [n|r c]; unfold random_array, fmap, M_fmap.
  - destruct (random_units_ok n t) as (us & Hus & Hlen & _).
    rewrite Hus. eexists. split; [reflexivity|]. simpl. now rewrite Hlen.
  - destruct (random_rows_ok r c t) as (rows & Hrows & _).
    rewrite Hrows. eexists. split; reflexivity.
Qed.

Lemma perturb_array_shape rate a t :
  exists a',
    perturb rate (VArray a) val_shape t =
      Ok (VArray a', np_advance t (shape_size (shape_of a))) /\
    shape_of a' = shape_of a.
Proof.
  set (lo := arr_map (fun x => x * (1 - rate))%Q a).
  set (hi := arr_map (fun x => x * (1 + rate))%Q a).
  assert (Hlo : shape_of lo = shape_of a) by apply arr_map_shape.
  assert (Hhi : shape_of hi = shape_of a) by apply arr_map_shape.
  destruct (broadcast2_same_shape Qminus hi lo) as (w & Hw & Hws); [congruence|].
  destruct (random_array_shape (shape_of a) t) as (u & Hu & Hus).
  destruct (broadcast2_same_shape Qmult w u) as (st & Hst & Hsts); [congruence|].
  destruct (broadcast2_same_shape Qplus lo st) as (r & Hr & Hrs); [congruence|].
  destruct (broadcast2_same_shape Qplus a r) as (a' & Ha' & Has); [congruence|].
  exists a'. split; [|exact Has].
  unfold perturb, val_shape, np_random_uniform. simpl.
  unfold lift, mbind, M_bind, fmap, M_fmap, result_fmap, mret, M_ret. simpl.
  fold lo hi. rewrite Hw. simpl. rewrite Hu, Hst. simpl. rewrite Hr. simpl.
  assert (Hok : shape_eqb (shape_of r) (shape_of a) = true)
    by (rewrite Hrs, Hlo; apply shape_eqb_refl).
  rewrite Hok. simpl. rewrite Ha'. reflexivity.
Qed.

Lemma np_random_rand2_negative r c t :
  (r < 0)%Z \/ (c < 0)%Z -> np_random_rand2 r c t = Err ValueError.
Proof.
  intros H. unfold np_random_rand2.
  destruct (Z.ltb_spec r 0), (Z.ltb_spec c 0); simpl; try reflexivity. lia.
Qed.

Lemma random_init_loop_negative lws n : forall k coefs ints t j w,
  k + n <= length lws - 1 ->
  k <= j <= k + n -> 1 <= n ->
  lws !! j = Some w -> (w < 0)%Z ->
  random_init_loop lws (seq k n) coefs ints t = Err ValueError.
Proof.
  induction n as [|n IH]; intros k coefs ints t j w Hk Hj Hn Hw Hneg; [lia|].
  assert (Hk0 : k < length lws) by lia.
  assert (Hk1 : k + 1 < length lws) by lia.
  destruct (lookup_lt_is_Some_2 lws k Hk0) as [a Ha].
  destruct (lookup_lt_is_Some_2 lws (k + 1) Hk1) as [b Hb].
  cbn [seq random_init_loop]. unfold list_item. rewrite Ha, Hb.
  rewrite (M_bind_ok _ _ t a t eq_refl).
  rewrite (M_bind_ok _ _ t b t eq_refl).
  destruct (Z.lt_ge_cases a 0) as [Ha0|Ha0];
    [apply M_bind_err, np_random_rand2_negative; auto|].
  destruct (Z.lt_ge_cases b 0) as [Hb0|Hb0];
    [apply M_bind_err, np_random_rand2_negative; auto|].
  destruct (np_random_rand2_ok a b t Ha0 Hb0) as (m & Hm & _).
  destruct (np_random_rand1_ok b (np_advance t (Z.to_nat a * Z.to_nat b)) Hb0)
    as (v & Hv & _).
  rewrite (M_bind_ok _ _ _ _ _ Hm).
  rewrite (M_bind_ok _ _ _ b _ eq_refl).
  rewrite (M_bind_ok _ _ _ _ _ Hv).
  assert (Hj2 : k + 2 <= j).
  { destruct (Nat.eq_dec j k) as [->|]; [rewrite Ha in Hw; injection Hw as ->; lia|].
    destruct (Nat.eq_dec j (k + 1)) as [->|]; [rewrite Hb in Hw; injection Hw as ->; lia|].
    lia. }
  apply (IH (S k) _ _ _ j w); auto; lia.
Qed.

Lemma GlobalGA_init_valid sf cr pm mm :
  valid_config {| selection_frac := sf; crossover_rate := cr;
                  physical_mutation_rate := pm; mental_mutation_rate := mm |} ->
  GlobalGA_init sf cr pm mm =
  Ok {| selection_frac := sf; crossover_rate := cr;
        physical_mutation_rate := pm; mental_mutation_rate := mm |}.
Proof.
  intros (H1 & H2 & H3 & H4 & H5 & H6). simpl in *.
  unfold GlobalGA_init, Qlt_bool.
  rewrite (proj2 (Qle_bool_iff _ _) H3), (proj2 (Qle_bool_iff _ _) H4),
    (proj2 (Qle_bool_iff _ _) H5), (proj2 (Qle_bool_iff _ _) H6).
  destruct (Qle_bool sf 0) eqn:E1.
  { apply Qle_bool_iff in E1. exfalso. apply (Qlt_not_le _ _ H1 E1). }
  destruct (Qle_bool 1 sf) eqn:E2.
  { apply Qle_bool_iff in E2. exfalso. apply (Qlt_not_le _ _ H2 E2). }
  reflexivity.
Qed.

Lemma GlobalGA_init_outcome sf cr pm mm :
  GlobalGA_init sf cr pm mm =
    Ok {| selection_frac := sf; crossover_rate := cr;
          physical_mutation_rate := pm; mental_mutation_rate := mm |} \/
  GlobalGA_init sf cr pm mm = Err AssertionError.
Proof.
  unfold GlobalGA_init, assert.
  destruct (Qlt_bool 0 sf), (Qlt_bool sf 1), (Qle_bool 0 cr), (Qle_bool cr 1),
    (Qle_bool 0 pm), (Qle_bool 0 mm); simpl; auto.
Qed.

(** ** Further properties of the code *)

(** X1.  [GlobalGA.__init__] accepts exactly the configurations with
    [0 < selection_frac < 1], [0 <= crossover_rate <= 1] and non-negative
    mutation rates, stores the four numbers as given, and rejects every
    other configuration with [AssertionError]. *)
Theorem GlobalGA_init_bounds sf cr pm mm :
  let config := {| selection_frac := sf; crossover_rate := cr;
                   physical_mutation_rate := pm; mental_mutation_rate := mm |} in
  (valid_config config <-> GlobalGA_init sf cr pm mm = Ok config) /\
  (~ valid_config config <-> GlobalGA_init sf cr pm mm = Err AssertionError) /\
  (forall self, GlobalGA_init sf cr pm mm = Ok self -> self = config).
Proof.
  intros config.
  assert (Hok : forall self, GlobalGA_init sf cr pm mm = Ok self ->
                  self = config /\ valid_config config).
  { intros self H. destruct (GlobalGA_init_ok _ _ _ _ _ H) as [-> Hv]. auto. }
  split; [|split].
  - split; [apply GlobalGA_init_valid|]. intros H. now destruct (Hok _ H).
  - split.
    + intros Hn. destruct (GlobalGA_init_outcome sf cr pm mm) as [H|H]; [|exact H].
      destruct (Hok _ H) as [_ Hv]. contradiction.
    + intros He Hv. rewrite (GlobalGA_init_valid _ _ _ _ Hv) in He. discriminate.
  - intros self H. now destruct (Hok _ H).
Qed.

(** X2.  For an accepted configuration the number [k] of selected
    individuals is the integer with [k <= N * selection_frac < k + 1],
    where [N * selection_frac] is the product of floats that [_select]
    computes; it never exceeds [N], is below [N] for a population that is
    not empty (at least one place is left for an offspring), and reaches
    two exactly when that product is at least 2. *)
Theorem select_size_bounds sf cr pm mm self critters :
  GlobalGA_init sf cr pm mm = Ok self ->
  let k := length (_select self critters) in
  let product :=
    round64 (round64 (inject_Z (Z.of_nat (length critters))) * sf) in
  (inject_Z (Z.of_nat k) <= product)%Q /\
  (product < inject_Z (Z.of_nat k) + 1)%Q /\
  k <= length critters /\
  (critters <> [] -> k < length critters) /\
  (2 <= k <-> (2 <= product)%Q).
Proof.
  intros Hinit k product.
  pose proof (init_valid _ _ _ _ _ Hinit) as Hv.
  pose proof (init_selection_frac _ _ _ _ _ Hinit) as Hsf.
  pose proof (select_length self Hv critters) as Hk. fold k in Hk.
  destruct (floor_bounds self (length critters) Hv) as [Hlo Hhi].
  rewrite <- Hk, Hsf in Hlo, Hhi.
  change (scaled (length critters) sf) with product in Hlo, Hhi.
  split; [exact Hlo|]. split; [exact Hhi|].
  split; [apply (select_parents_le _ _ _ _ _ Hinit)|].
  split.
  - intros Hne. apply select_length_lt; [exact Hv|].
    destruct critters; [contradiction|simpl; lia].
  - split.
    + intros H2. eapply Qle_trans; [|exact Hlo].
      change 2%Q with (inject_Z 2). rewrite <- Zle_Qle. lia.
    + intros H2.
      assert (H : (inject_Z 2 < inject_Z (Z.of_nat k + 1))%Q).
      { rewrite inject_Z_plus. eapply Qle_lt_trans; [exact H2|exact Hhi]. }
      rewrite <- Zlt_Qlt in H. lia.
Qed.

Lemma select_size_bounds_witness :
  GlobalGA_init Example.three_tenths (1 # 2) 0 0 = Ok Sample.thrifty /\
  length (_select Sample.thrifty Sample.ten) = 3 /\
  (3 <= round64 (round64 (inject_Z 10) * Example.three_tenths))%Q /\
  (2 <= length (_select Sample.thrifty Sample.ten) <->
   (2 <= round64 (round64 (inject_Z 10) * Example.three_tenths))%Q).
Proof.
  split; [reflexivity|].
  destruct (select_size_bounds Example.three_tenths (1 # 2) 0 0 Sample.thrifty
              Sample.ten) as (Hlo & _ & _ & _ & Hiff); [reflexivity|].
  assert (Hk : length (_select Sample.thrifty Sample.ten) = 3)
    by (vm_compute; reflexivity).
  split; [exact Hk|]. split; [|exact Hiff].
  rewrite Hk in Hlo. exact Hlo.
Defined.

(** X3.  When no two individuals have the same fitness, the selection
    does not depend on the order of the population: every rearrangement
    of the population selects the same individuals in the same order. *)
Theorem select_order_independent self critters critters' :
  NoDup (map fitness critters) ->
  Permutation critters critters' ->
  _select self critters' = _select self critters.
Proof.
  intros Hnd Hp. unfold _select.
  now rewrite (sorted_reverse_perm_eq fitness critters critters' Hnd Hp).
Qed.

Lemma select_order_independent_witness :
  NoDup (map fitness Example.population) /\
  Permutation Example.population Sample.shuffled /\
  _select Example.ga Sample.shuffled = [Example.herby 10; Example.herby 5].
Proof.
  assert (Hnd : NoDup (map fitness Example.population)).
  { repeat constructor; simpl; rewrite ?list_elem_of_In; simpl; intuition discriminate. }
  assert (Hp : Permutation Example.population Sample.shuffled).
  { unfold Example.population, Sample.shuffled.
    etransitivity; [apply perm_swap|]. do 2 apply perm_skip. apply perm_swap. }
  split; [exact Hnd|]. split; [exact Hp|].
  rewrite (select_order_independent Example.ga _ _ Hnd Hp). reflexivity.
Defined.

(** X4.  A population that is already in decreasing order of fitness is
    not reordered: the selection is its first [floor(N * selection_frac)]
    individuals, ties included in the order given, for the product of
    floats [N * selection_frac] that [_select] computes. *)
Theorem select_ranked_prefix sf cr pm mm self critters :
  GlobalGA_init sf cr pm mm = Ok self ->
  StronglySorted fitter_first critters ->
  _select self critters = firstn (parent_count (length critters) sf) critters /\
  parent_count (length critters) sf =
    Z.to_nat (Qfloor (round64 (round64 (inject_Z (Z.of_nat (length critters)))
                                * sf))).
Proof.
  intros Hinit Hs. split; [|reflexivity].
  rewrite (select_parents _ _ _ _ _ Hinit).
  now rewrite (sorted_reverse_fixed fitness critters Hs).
Qed.

Lemma select_ranked_prefix_witness :
  GlobalGA_init Example.half (1 # 2) 0 0 = Ok Example.ga /\
  StronglySorted fitter_first Sample.ranked /\
  _select Example.ga Sample.ranked = [Example.herby 9; Example.herby 4].
Proof.
  assert (Hs : StronglySorted fitter_first Sample.ranked).
  { unfold Sample.ranked.
    repeat first [apply SSorted_nil | apply SSorted_cons
                 | apply List.Forall_nil | apply List.Forall_cons];
      unfold fitter_first, desc; simpl; lia. }
  split; [reflexivity|]. split; [exact Hs|].
  destruct (select_ranked_prefix Example.half (1 # 2) 0 0 Example.ga Sample.ranked)
    as [Hsel Hk]; [reflexivity|exact Hs|].
  rewrite Hsel. vm_compute. reflexivity.
Defined.


(** X9.  The value a mental mutation assigns to a layer is an array of
    the shape of the layer, whatever the rate, and costs one draw of
    [numpy.random] for each element of the layer. *)
Theorem mutated_layer_shape rate a t :
  exists a',
    perturb rate (VArray a) val_shape t =
      Ok (VArray a', np_advance t (shape_size (shape_of a))) /\
    shape_of a' = shape_of a.
Proof. apply perturb_array_shape. Qed.

(** X10.  For non-negative widths and one activation for each pair of
    consecutive widths, [Brain.random_init] returns a brain with the given
    activations whose layer [i] has a rectangular matrix of [lws[i]] rows
    and [lws[i+1]] columns and an intercept of [lws[i+1]] floats, every
    one of them in [0, 1); it draws from [numpy.random] only. *)
Theorem random_init_shapes af lws t :
  Forall (fun w => 0 <= w)%Z lws ->
  length af = length lws - 1 ->
  exists brain t',
    Brain_random_init af lws t = Ok (brain, t') /\
    afs brain = af /\
    length (coefs brain) = length lws - 1 /\
    _n_layers brain = length (coefs brain) + 1 /\
    layers_fit (map Z.to_nat lws) (coefs brain) (intercepts brain) /\
    rnd_pos t' = rnd_pos t /\ rnd_src t' = rnd_src t /\ np_src t' = np_src t.
Proof.
  intros Hw Haf.
  destruct (random_init_returns af lws Hw t Haf)
    as (ms & bs & t' & Hrun & _ & Hlen & Ht1 & Ht2 & Ht3 & Hfit).
  eexists _, t'. split; [exact Hrun|]. simpl. auto 10.
Qed.

Lemma random_init_shapes_witness :
  exists brain t',
    Brain_random_init Sample.activations_2 Sample.widths Example.a_tape
      = Ok (brain, t') /\
    length (coefs brain) = 2 /\
    layers_fit [2; 3; 1] (coefs brain) (intercepts brain).
Proof.
  destruct (random_init_shapes Sample.activations_2 Sample.widths Example.a_tape)
    as (brain & t' & Hrun & _ & Hlen & _ & Hfit & _).
  - repeat constructor; discriminate.
  - reflexivity.
  - exists brain, t'. split; [exact Hrun|]. split; [exact Hlen|exact Hfit].
Defined.

(** X11.  The loop of [Brain.random_init] draws
    [max(0, len(lws) - 1)] layers.  With non-negative widths the call
    returns a brain exactly when that is the number of activations, and
    otherwise fails the assertion of [Brain.__init__], after the layers
    were drawn.  For an empty tuple of widths no layer is drawn, and no
    activation is then the right number: [random_init] of nothing returns
    the brain without layers, although [len(lws) - 1] is [-1]. *)
Theorem random_init_wrong_activations af lws t :
  Forall (fun w => 0 <= w)%Z lws ->
  let layers := Z.max 0 (Z.of_nat (length lws) - 1) in
  ((exists brain t', Brain_random_init af lws t = Ok (brain, t')) <->
   Z.of_nat (length af) = layers) /\
  (Z.of_nat (length af) <> layers ->
   Brain_random_init af lws t = Err AssertionError) /\
  Brain_random_init [] [] t =
    Ok ({| afs := []; coefs := []; intercepts := []; _n_layers := 1 |}, t).
Proof.
  intros Hw layers.
  assert (Hz : Z.of_nat (length af) = layers <-> length af = length lws - 1)
    by (unfold layers; lia).
  split; [|split].
  - split.
    + intros (brain & t' & Hrun). apply Hz.
      destruct (Nat.eq_dec (length af) (length lws - 1)) as [E|E]; [exact E|].
      rewrite (random_init_rejects af lws Hw t E) in Hrun. discriminate.
    + intros E. apply Hz in E.
      destruct (random_init_returns af lws Hw t E) as (ms & bs & t' & Hrun & _).
      eexists _, t'. exact Hrun.
  - intros E. apply random_init_rejects; [exact Hw|]. intros E'. now apply E, Hz.
  - reflexivity.
Qed.

Lemma random_init_wrong_activations_witness :
  Brain_random_init [Example.identity] Sample.widths Example.a_tape
    = Err AssertionError /\
  (exists brain t',
     Brain_random_init Sample.activations_2 Sample.widths Example.a_tape
     = Ok (brain, t')).
Proof.
  destruct (random_init_wrong_activations [Example.identity] Sample.widths
              Example.a_tape) as (_ & Hrej & _);
    [repeat constructor; discriminate|].
  destruct (random_init_wrong_activations Sample.activations_2 Sample.widths
              Example.a_tape) as (Hiff & _ & _);
    [repeat constructor; discriminate|].
  split; [apply Hrej; simpl; lia|apply Hiff; reflexivity].
Defined.

(** X12.  [Brain.random_init] called with two or more widths of which one
    is negative raises the [ValueError] of [numpy.random.rand], whatever
    the activations. *)
Theorem random_init_negative_width af lws t :
  2 <= length lws ->
  Exists (fun w => w < 0)%Z lws ->
  Brain_random_init af lws t = Err ValueError.
Proof.
  intros Hlen Hneg.
  apply Exists_exists in Hneg as (w & Hin & Hw).
  apply list_elem_of_lookup in Hin as (j & Hj).
  pose proof (lookup_lt_Some _ _ _ Hj) as Hjlt.
  unfold Brain_random_init. apply M_bind_err.
  apply (random_init_loop_negative lws (length lws - 1) 0 [] [] t j w); auto; lia.
Qed.

Lemma random_init_negative_width_witness :
  Brain_random_init Sample.activations_2 [2; -3; 1]%Z Example.a_tape
  = Err ValueError.
Proof.
  apply random_init_negative_width.
  - simpl; lia.
  - apply Exists_cons_tl, Exists_cons_hd. reflexivity.
Defined.

(** X13.  A brain returned by [Brain.random_init] for at least one
    width, with activations that keep the width of their argument, accepts
    every input vector of the first width: [Brain.__call__] returns a
    vector of the last width and raises no shape error. *)
Theorem random_init_then_call af lws x t :
  Forall (fun w => 0 <= w)%Z lws ->
  lws <> [] ->
  length af = length lws - 1 ->
  Forall keeps_width af ->
  length x = layer_width lws 0 ->
  exists brain t' out,
    Brain_random_init af lws t = Ok (brain, t') /\
    Brain_call brain (Vec x) = Ok (Vec out) /\
    length out = List.last (map Z.to_nat lws) 0.
Proof.
  intros Hw Hne Haf Hkeep Hx.
  destruct (random_init_returns af lws Hw t Haf)
    as (ms & bs & t' & Hrun & Hinit & Hlen & _ & _ & _ & Hfit).
  destruct lws as [|w0 ws]; [contradiction|].
  unfold layer_width in Hx. simpl in Hx, Hfit, Hlen.
  assert (Hch : chained (length x) af ms bs).
  { rewrite Hx. eapply layers_fit_chained; [exact Hfit| |exact Hkeep].
    simpl in Haf. lia. }
  destruct (Brain_call_vector_final af ms bs _ Hinit x Hch) as [Hcall Hout].
  eexists _, t', _. split; [exact Hrun|].
  split; [unfold Brain_call; now rewrite Hcall|].
  rewrite Hout, Hx.
  apply (layers_fit_output_width ms _ _ bs Hfit).
  rewrite length_map. lia.
Qed.

Lemma random_init_then_call_witness :
  exists brain t' out,
    Brain_random_init Sample.activations_2 Sample.widths Example.a_tape
      = Ok (brain, t') /\
    Brain_call brain (Vec [1; 2]%Q) = Ok (Vec out) /\
    length out = 1.
Proof.
  apply (random_init_then_call Sample.activations_2 Sample.widths [1; 2]%Q).
  - repeat constructor; discriminate.
  - discriminate.
  - reflexivity.
  - repeat constructor.
  - reflexivity.
Defined.

(** X14.  For a brain built by [Brain.__init__] whose shapes chain from
    the row width of a two-dimensional input, [Brain.__call__] returns
    the final activations of the rows, one row after the other, in one
    flat vector of (number of rows) * (output width) floats. *)
Theorem brain_call_batch fs ms bs brain xs :
  Brain_init fs ms bs = Ok brain ->
  wf_matrix xs ->
  chained (ncols xs) fs ms bs ->
  Brain_call brain (Mat xs) =
    Ok (Vec (concat (map (final_activation fs ms bs) (entries xs)))) /\
  Forall (fun row => Brain_call brain (Vec row) =
                     Ok (Vec (final_activation fs ms bs row))) (entries xs) /\
  length (concat (map (final_activation fs ms bs) (entries xs))) =
    nrows xs * output_width (ncols xs) ms.
Proof.
  intros Hinit Hwf Hch.
  destruct (Brain_call_batch fs ms bs brain Hinit xs Hwf Hch) as [Hcall Hlen].
  split; [exact Hcall|]. split; [|exact Hlen].
  destruct Hwf as [_ Hcols].
  eapply Forall_impl; [exact Hcols|]. intros row Hrow. simpl in Hrow.
  rewrite <- Hrow in Hch.
  destruct (Brain_call_vector_final fs ms bs brain Hinit row Hch) as [H _].
  unfold Brain_call. now rewrite H.
Qed.

Lemma brain_call_batch_witness :
  Brain_init [Example.identity] [Example.weights] [[0; 0; 0]%Q] = Ok Example.a_brain /\
  Brain_call Example.a_brain (Mat Sample.batch)
    = Ok (Vec [5; 7; 9; 4; 5; 6]%Q) /\
  length [5; 7; 9; 4; 5; 6]%Q = 2 * 3.
Proof.
  split; [reflexivity|].
  destruct (brain_call_batch [Example.identity] [Example.weights] [[0; 0; 0]%Q]
              Example.a_brain Sample.batch) as (Hcall & _ & _).
  - reflexivity.
  - unfold wf_matrix. simpl. split; [reflexivity|repeat constructor].
  - simpl. unfold wf_matrix. simpl. repeat split; auto; repeat constructor.
  - split; [|reflexivity]. rewrite Hcall. vm_compute. reflexivity.
Defined.

(** X15.  For a brain with at least one layer, an input vector whose
    width is not the number of rows of the first coefficient matrix makes
    [Brain.__call__] raise the [ValueError] of [np.dot]. *)
Theorem brain_call_wrong_width f fs m ms b bs brain x :
  Brain_init (f :: fs) (m :: ms) (b :: bs) = Ok brain ->
  length x <> nrows m ->
  Brain_call brain (Vec x) = Err ValueError /\
  Brain_call brain (Mat (Matrix 1 (length x) [x])) = Err ValueError.
Proof.
  intros Hinit Hx.
  pose proof (Brain_call_wrong_width _ _ _ _ _ _ _ _ Hinit Hx) as H.
  split; [exact H|].
  unfold Brain_call in *. simpl.
  destruct (Brain_call_vector brain x); [discriminate|].
  injection H as ->. reflexivity.
Qed.

Lemma brain_call_wrong_width_witness :
  Brain_call Example.a_brain (Vec [0; 0; 0]%Q) = Err ValueError.
Proof.
  apply (brain_call_wrong_width Example.identity [] Example.weights []
           [0; 0; 0]%Q [] Example.a_brain [0; 0; 0]%Q).
  - reflexivity.
  - discriminate.
Defined.

(** X16.  For an accepted configuration, [evolve_generation] returns a
    population for the empty population only: for every other population
    it raises, whatever the flags and the draws. *)
Theorem evolve_generation_only_empty sf cr pm mm self critters mp mb t :
  GlobalGA_init sf cr pm mm = Ok self ->
  ((exists out t', evolve_generation self critters mp mb t = Ok (out, t')) <->
   critters = []) /\
  (critters <> [] -> exists e, evolve_generation self critters mp mb t = Err e).
Proof.
  intros Hinit.
  assert (Hraise : critters <> [] ->
            exists e, evolve_generation self critters mp mb t = Err e).
  { intros Hne. eapply evolve_generation_raises; [exact Hinit|].
    destruct critters; [contradiction|simpl; lia]. }
  split; [|exact Hraise]. split.
  - intros (out & t' & Hrun). destruct critters as [|c l]; [reflexivity|].
    destruct Hraise as [e He]; [discriminate|]. rewrite He in Hrun. discriminate.
  - intros ->. eexists _, _. eapply evolve_generation_empty. exact Hinit.
Qed.

Lemma evolve_generation_only_empty_witness :
  exists e,
    evolve_generation Example.ga Example.population true true Example.a_tape = Err e.
Proof.
  destruct (evolve_generation_only_empty Example.half (1 # 2) 0 0 Example.ga
              Example.population true true Example.a_tape) as [_ H];
    [reflexivity|].
  apply H. discriminate.
Defined.

(** X17.  For an accepted configuration and a population of one class
    from which at least two parents are selected, [evolve_generation]
    fails at its first mating with the [AttributeError] of
    [getattr(primary, "mass")], with or without mutation. *)
Theorem evolve_generation_one_class sf cr pm mm self critters mp mb t k :
  GlobalGA_init sf cr pm mm = Ok self ->
  2 <= parent_count (length critters) sf ->
  (forall c, In c critters -> cls c = k) ->
  evolve_generation self critters mp mb t = Err (AttributeError "mass").
Proof.
  intros Hinit Hpair Hcls.
  destruct (evolve_generation_first_mating sf cr pm mm self Hinit critters mp mb t)
    as (a & b & t1 & Ha & Hb & _ & Hrun).
  - now rewrite (select_parents_length _ _ _ _ _ Hinit).
  - rewrite Hrun, (Hcls a Ha), (Hcls b Hb).
    now rewrite (proj2 (class_eqb_eq k k) eq_refl).
Qed.

Lemma evolve_generation_one_class_witness :
  evolve_generation Example.ga Example.population false false Example.a_tape
  = Err (AttributeError "mass").
Proof.
  apply (evolve_generation_one_class Example.half (1 # 2) 0 0 Example.ga
           Example.population false false Example.a_tape Herby_class).
  - reflexivity.
  - vm_compute; lia.
  - simpl. intros c [<-|[<-|[<-|[<-|[]]]]]; reflexivity.
Defined.
